(** * pysrt: the [SubRipFile] collection of [srtfile.py]

    A shallow embedding of [pysrt/srtfile.py]: the two-track aligner
    [SubRipFile.match] with [merge_dict], the block parser
    [SubRipFile.stream] with [_handle_error], the serializer
    [SubRipFile.write_into], the bulk operations [slice], [at], [shift] and
    [clean_indexes], the [eol] property with [_guess_eol], [read],
    [from_string], the [text] property and [_detect_encoding].

    Conventions.
    - Python integers are [Z]; list positions and lengths are [nat].
    - A Python string is a [string]; a character stands for a code point
      below 256.
    - A dict with string keys is a [gmap string _].  A [gmap] does not keep
      the insertion order of a dict; nothing below depends on that order.
    - [match] and [merge_dict] are read with Python 3 scoping: the variable
      of a list comprehension is local to it.
    - The classes [SubRipItem], [SubRipTime] and [Error] live in modules
      of the package that are not part of [srtfile.py]; what [srtfile.py]
      uses of them is either taken as an argument or modelled from the
      specification, and marked so. *)

From Stdlib Require Import Ascii.
From Stdlib.Strings Require Byte.
From stdpp Require Import gmap strings list fin_maps sorting.

Open Scope Z_scope.

(** ** Data model *)

(** Modelled from the spec: the class [SubRipTime] (module [srttime]) is an
    exact millisecond count, [ordinal], which may be negative. *)
Record SubRipTime : Type := { ordinal : Z }.

(** Modelled from the spec: the class [SubRipItem] (module [srtitem]) carries
    a sequence index, a start and an end time, the raw text and the
    per-language text mapping. *)
Record SubRipItem : Type := {
  index : Z;
  start : SubRipTime;
  end_ : SubRipTime;
  text : string;
  lang_map : gmap string string
}.

(** Modelled from the spec: the constructor call
    [SubRipItem(start=.., end=.., lang_map=..)] of [match].  The values of the
    fields the call leaves out are not fixed by the specification; no
    statement below reads them. *)
Definition new_SubRipItem (start end_ : SubRipTime)
    (lang_map : gmap string string) : SubRipItem :=
  {| index := 0; start := start; end_ := end_; text := EmptyString;
     lang_map := lang_map |}.

(** [SubRipFile]: the [UserList] payload [data] and the attributes set by
    [__init__].  [E] is what the list holds: record values where an
    operation only reads the records, references into a store where it
    mutates them. *)
Record SubRipFile (E : Type) : Type := {
  data : list E;
  _eol : option string;
  path : option string;
  encoding : string;
  lang_stat : gmap string nat;
  langs : list string
}.
Arguments data {E} _.
Arguments _eol {E} _.
Arguments path {E} _.
Arguments encoding {E} _.
Arguments lang_stat {E} _.
Arguments langs {E} _.

(** [SubRipFile()] *)
Definition new_SubRipFile {E : Type} (items : list E) : SubRipFile E :=
  {| data := items; _eol := None; path := None; encoding := "utf-8";
     lang_stat := ∅; langs := [] |}.

(** ** Outcomes of fallible code *)

Inductive outcome (A : Type) : Type :=
  | Done (a : A)   (* the code runs to completion *)
  | Raises         (* IndexError, KeyError or TypeError escapes *)
  | NoFuel.        (* the step budget of the model ran out *)
Arguments Done {A} a.
Arguments Raises {A}.
Arguments NoFuel {A}.

#[export] Instance outcome_ret : MRet outcome := λ A a, Done a.
#[export] Instance outcome_bind : MBind outcome := λ A B f m,
  match m with
  | Done a => f a
  | Raises => Raises
  | NoFuel => NoFuel
  end.

(** [d[key]] and [l[i]] *)
Definition of_option {A : Type} (o : option A) : outcome A :=
  match o with Some a => Done a | None => Raises end.

Definition getitem {A : Type} (l : list A) (i : nat) : outcome A :=
  of_option (l !! i).

(** ** [merge_dict] *)

(** [key in d] *)
Definition contains (key : string) (d : gmap string string) : bool :=
  bool_decide (is_Some (d !! key)).

(** One pass of the body of the [for key in set(...)] loop. *)
Definition merge_key (d1 d2 : gmap string string) (key : string)
    (acc : outcome (gmap string string)) : outcome (gmap string string) :=
  ret ← acc;
  if contains key d1 && contains key d2 then
    v1 ← of_option (d1 !! key);
    v2 ← of_option (d2 !! key);
    Done (<[key := v1 +:+ v2]> ret)
  else
    v ← (if contains key d1 then of_option (d1 !! key)
         else of_option (d2 !! key));
    Done (<[key := v]> ret).

Definition merge_dict (d1 d2 : gmap string string)
    : outcome (gmap string string) :=
  set_fold (merge_key d1 d2) (Done ∅) (dom d1 ∪ dom d2).

(** The entry a merge of [d1] and [d2] is to hold at [key]: the case
    analysis of the loop body, read as a table. *)
Definition merged_at (d1 d2 : gmap string string) (key : string)
    : option string :=
  match d1 !! key, d2 !! key with
  | Some v1, Some v2 => Some (v1 +:+ v2)
  | Some v1, None => Some v1
  | None, Some v2 => Some v2
  | None, None => None
  end.

(** [functools.reduce(f, l)] without an initial value: [TypeError] on the
    empty list. *)
Definition reduce {A : Type} (f : A → A → outcome A) (l : list A)
    : outcome A :=
  match l with
  | [] => Raises
  | x :: xs => foldl (λ acc y, a ← acc; f a y) (Done x) xs
  end.

(** ** [SubRipFile.match] *)

Record match_state : Type := {
  st_i : nat;
  st_j : nat;
  st_ret : list SubRipItem
}.

(** The inner [while] of branch 1.2: starting from [j] with [other_bag]
    already holding [other[j]], take the following records of [other] while
    their end lies less than 1000 ms after [self_end]. *)
Fixpoint gather (fuel : nat) (self_end : Z) (other : list SubRipItem)
    (j : nat) (other_bag : list SubRipItem)
    : outcome (nat * list SubRipItem) :=
  if bool_decide (j + 1 < length other)%nat then
    nxt ← getitem other (j + 1);
    if bool_decide (ordinal (end_ nxt) - self_end < 1000) then
      match fuel with
      | O => NoFuel
      | S fuel' =>
          cur ← getitem other (j + 1);
          gather fuel' self_end other (j + 1) (other_bag ++ [cur])
      end
    else Done (j, other_bag)
  else Done (j, other_bag).

(** [bag.append(xs[k])] followed by the inner [while]. *)
Definition gather_from (xs : list SubRipItem) (k : nat) (y_end : Z)
    : outcome (nat * list SubRipItem) :=
  x ← getitem xs k;
  gather (length xs) y_end xs k [x].

(** The guard of branches 1.2 and 1.3: a next record exists in [xs] and it
    ends more than 1000 ms after [y_end]. *)
Definition next_ends_far (xs : list SubRipItem) (k : nat) (y_end : Z)
    : outcome bool :=
  if bool_decide (k + 1 < length xs)%nat then
    nxt ← getitem xs (k + 1);
    Done (bool_decide (ordinal (end_ nxt) - y_end > 1000))
  else Done false.

(** Branch 1.2 ([end_delta > 1000]): several records of [other] against
    [self[i]]. *)
Definition group_other (self other : list SubRipItem) (st : match_state)
    : outcome match_state :=
  let i := st_i st in
  let j := st_j st in
  si ← getitem self i;
  far ← next_ends_far other j (ordinal (end_ si));
  if far : bool then
    Done {| st_i := i + 1; st_j := j + 1; st_ret := st_ret st |}
  else
    '(j', other_bag) ← gather_from other j (ordinal (end_ si));
    oj' ← getitem other j';
    ret ←
      (if bool_decide (Z.abs (ordinal (end_ oj') - ordinal (end_ si)) < 1000)
       then
         l_map ← reduce merge_dict (lang_map <$> other_bag);
         Done (st_ret st ++ [new_SubRipItem (start si) (end_ si) l_map])
       else Done (st_ret st));
    Done {| st_i := i + 1; st_j := j' + 1; st_ret := ret |}.

(** Branch 1.3 ([end_delta < -1000]): several records of [self] against
    [other[j]].  The emitted record spans the last gathered record of
    [self]. *)
Definition group_self (self other : list SubRipItem) (st : match_state)
    : outcome match_state :=
  let i := st_i st in
  let j := st_j st in
  oj ← getitem other j;
  far ← next_ends_far self i (ordinal (end_ oj));
  if far : bool then
    Done {| st_i := i + 1; st_j := j + 1; st_ret := st_ret st |}
  else
    '(i', self_bag) ← gather_from self i (ordinal (end_ oj));
    si' ← getitem self i';
    ret ←
      (if bool_decide (Z.abs (ordinal (end_ si') - ordinal (end_ oj)) < 1000)
       then
         l_map ← reduce merge_dict (lang_map <$> self_bag);
         Done (st_ret st ++ [new_SubRipItem (start si') (end_ si') l_map])
       else Done (st_ret st));
    Done {| st_i := i' + 1; st_j := j + 1; st_ret := ret |}.

(** One pass of the body of the outer [while]. *)
Definition match_iter (self other : list SubRipItem) (st : match_state)
    : outcome match_state :=
  let i := st_i st in
  let j := st_j st in
  si ← getitem self i;
  oj ← getitem other j;
  let start_delta := ordinal (start si) - ordinal (start oj) in
  let end_delta := ordinal (end_ si) - ordinal (end_ oj) in
  if bool_decide (Z.abs start_delta ≤ 1000) then
    if bool_decide (Z.abs end_delta ≤ 1000) then
      l_map ← reduce merge_dict [lang_map si; lang_map oj];
      Done {| st_i := i + 1; st_j := j + 1;
              st_ret := st_ret st ++
                        [new_SubRipItem (start si) (end_ si) l_map] |}
    else if bool_decide (end_delta > 1000) then group_other self other st
    else if bool_decide (end_delta < -1000) then group_self self other st
    else Done st
  else if bool_decide (start_delta < -1000) then
    Done {| st_i := i + 1; st_j := j; st_ret := st_ret st |}
  else
    Done {| st_i := i; st_j := j + 1; st_ret := st_ret st |}.

(** [while i < self_num and j < other_num] *)
Definition running (self other : list SubRipItem) (st : match_state) : bool :=
  bool_decide (st_i st < length self)%nat &&
  bool_decide (st_j st < length other)%nat.

Fixpoint match_loop (fuel : nat) (self other : list SubRipItem)
    (st : match_state) : outcome match_state :=
  if running self other st then
    match fuel with
    | O => NoFuel
    | S fuel' =>
        st' ← match_iter self other st;
        match_loop fuel' self other st'
    end
  else Done st.

(** The pass from [st] takes branch 1.2: the starts lie within 1000 ms of
    each other and [self[i]] ends more than 1000 ms after [other[j]]. *)
Definition in_branch_1_2 (self other : list SubRipItem) (st : match_state)
    : bool :=
  match self !! st_i st, other !! st_j st with
  | Some si, Some oj =>
      bool_decide (Z.abs (ordinal (start si) - ordinal (start oj)) ≤ 1000) &&
      bool_decide (ordinal (end_ si) - ordinal (end_ oj) > 1000)
  | _, _ => false
  end.

(** [dict.keys()] *)
Definition keys {V : Type} (d : gmap string V) : list string :=
  (map_to_list d).*1.

(** [collections.Counter(iterable)] *)
Definition Counter (l : list string) : gmap string nat :=
  foldl (λ c k, <[k := S (default O (c !! k))]> c) ∅ l.

(** [int(len(ret)/10)]: the quotient is not negative, so truncation and
    floor agree. *)
Definition tenth (n : nat) : nat := (n / 10)%nat.

(** The two statements after the loop. *)
Definition with_lang_stat (ret : SubRipFile SubRipItem)
    : SubRipFile SubRipItem :=
  let stat := Counter (concat (keys ∘ lang_map <$> data ret)) in
  {| data := data ret; _eol := _eol ret; path := path ret;
     encoding := encoding ret;
     lang_stat := stat;
     langs := filter (λ key, tenth (length (data ret))
                             < default O (stat !! key))%nat (keys stat) |}.

Definition match_init : match_state :=
  {| st_i := 0; st_j := 0; st_ret := [] |}.

(** [self.match(other)], on the records read through the two collections.
    The loop is given [len(self) + len(other)] passes. *)
Definition SubRipFile_match (self other : list SubRipItem)
    : outcome (SubRipFile SubRipItem) :=
  st ← match_loop (length self + length other) self other match_init;
  Done (with_lang_stat (new_SubRipFile (st_ret st))).

(** The records of [l] whose [lang_map] has the tag [key]. *)
Definition records_with (key : string) (l : list SubRipItem)
    : list SubRipItem :=
  filter (λ r, is_Some (lang_map r !! key)) l.

(** The number of times [key] occurs in [l]. *)
Definition occurrences {A : Type} `{EqDecision A} (key : A) (l : list A)
    : nat :=
  length (filter (λ x, x = key) l).

(** The alignment scenario of the specification: one record of the [self]
    track against two records of the [other] track. *)
Definition at_ms (n : Z) : SubRipTime := {| ordinal := n |}.

Definition scenario_self : list SubRipItem :=
  [new_SubRipItem (at_ms 1000) (at_ms 3000) {["en" := "hi"]}].

Definition scenario_other : list SubRipItem :=
  [new_SubRipItem (at_ms 1050) (at_ms 1900) {["fr" := "bonjour"]};
   new_SubRipItem (at_ms 1950) (at_ms 2950) {["fr" := "monde"]}].

(** ** Strings *)

Definition LF : ascii := "010"%char.
Definition CR : ascii := "013"%char.

(** The one-character string ['\n']. *)
Definition nl : string := String LF EmptyString.

(** [str.isspace] on code points below 256. *)
Definition isspace (c : ascii) : bool :=
  let n := nat_of_ascii c in
  ((9 <=? n) && (n <=? 13) || (28 <=? n) && (n <=? 32) ||
   (n =? 133) || (n =? 160))%nat.

Fixpoint lstrip (s : string) : string :=
  match s with
  | EmptyString => EmptyString
  | String c s' => if isspace c then lstrip s' else s
  end.

Definition rstrip (s : string) : string :=
  String.rev (lstrip (String.rev s)).

(** [s.strip()] *)
Definition strip (s : string) : string := rstrip (lstrip s).

(** The truth value of a string: it is not empty. *)
Definition str_bool (s : string) : bool :=
  match s with EmptyString => false | String _ _ => true end.

(** [s.replace(old, new)] for a one-character [old]. *)
Fixpoint replace (s : string) (old : ascii) (new : string) : string :=
  match s with
  | EmptyString => EmptyString
  | String c s' =>
      if Ascii.eqb c old then new +:+ replace s' old new
      else String c (replace s' old new)
  end.

(** [s.endswith(suffix)]: [s] is [suffix], or what follows the first
    character of [s] ends with [suffix]. *)
Fixpoint endswith (s suffix : string) : bool :=
  String.eqb s suffix ||
  match s with
  | EmptyString => false
  | String _ s' => endswith s' suffix
  end.

(** [''.join(l)] *)
Definition join_empty (l : list string) : string :=
  foldr String.app EmptyString l.

(** [a or b] for a string [a] that may be [None]. *)
Definition or_str (a : option string) (b : string) : string :=
  match a with
  | Some s => if str_bool s then s else b
  | None => b
  end.

(** ** [SubRipFile.stream] and [_handle_error] *)

(** The members of [error.args]. *)
Inductive pyval : Type :=
  | PyInt (n : Z)
  | PyStr (s : string).

(** Modelled from the spec: an [Error] of module [srtexc] (FormatError,
    TimestampFormatError) is known by the name of its class and its
    argument tuple. *)
Record Error : Type := {
  exc_name : string;
  args : list pyval
}.

Definition ERROR_PASS : Z := 0.
Definition ERROR_LOG : Z := 1.
Definition ERROR_RAISE : Z := 2.

(** What [ERROR_LOG] sends to [sys.stderr]: the class name, the line index
    and [error.args[0]].  The rendering of these as bytes is not modelled. *)
Record diagnostic : Type := {
  diag_name : string;
  diag_line : nat;
  diag_arg : option pyval
}.

Inductive handled : Type :=
  | Reraised (error : Error)
  | Returned (stderr : list diagnostic).

(** [error_handling] is [None] when [from_string] is called without it; it
    then equals neither constant. *)
Definition _handle_error (error : Error) (error_handling : option Z)
    (index : nat) (stderr : list diagnostic) : handled :=
  if bool_decide (error_handling = Some ERROR_RAISE) then
    Reraised {| exc_name := exc_name error;
                args := PyInt (Z.of_nat index) :: args error |}
  else if bool_decide (error_handling = Some ERROR_LOG) then
    Returned (stderr ++ [{| diag_name := exc_name error; diag_line := index;
                            diag_arg := head (args error) |}])
  else Returned stderr.

(** The generator's local state and what its consumer has seen so far. *)
Record stream_state : Type := {
  string_buffer : list string;
  yielded : list SubRipItem;
  stderr : list diagnostic
}.

Inductive stream_result : Type :=
  | Exhausted (st : stream_state)
  | Aborted (yielded : list SubRipItem) (stderr : list diagnostic)
            (error : Error).

(** The body of [for index, line in enumerate(...)], from position [index]
    on.  [from_lines] stands for [SubRipItem.from_lines], which either
    returns a record or raises an [Error]. *)
Fixpoint stream_loop (from_lines : list string → SubRipItem + Error)
    (error_handling : option Z) (index : nat) (lines : list string)
    (st : stream_state) : stream_result :=
  match lines with
  | [] => Exhausted st
  | line :: rest =>
      if str_bool (strip line) then
        stream_loop from_lines error_handling (S index) rest
          {| string_buffer := string_buffer st ++ [line];
             yielded := yielded st; stderr := stderr st |}
      else
        let source := string_buffer st in
        if negb (bool_decide (source = [])) && forallb str_bool source then
          match from_lines source with
          | inl item =>
              stream_loop from_lines error_handling (S index) rest
                {| string_buffer := []; yielded := yielded st ++ [item];
                   stderr := stderr st |}
          | inr error =>
              let error :=
                {| exc_name := exc_name error;
                   args := args error ++ [PyStr (join_empty source)] |} in
              match _handle_error error error_handling index (stderr st) with
              | Reraised e => Aborted (yielded st) (stderr st) e
              | Returned err =>
                  stream_loop from_lines error_handling (S index) rest
                    {| string_buffer := []; yielded := yielded st;
                       stderr := err |}
              end
          end
        else
          stream_loop from_lines error_handling (S index) rest
            {| string_buffer := []; yielded := yielded st;
               stderr := stderr st |}
  end.

Definition stream_init : stream_state :=
  {| string_buffer := []; yielded := []; stderr := [] |}.

(** [chain(source_file, '\n')] *)
Definition chain_nl (source_file : list string) : list string :=
  source_file ++ [nl].

Definition stream (from_lines : list string → SubRipItem + Error)
    (source_file : list string) (error_handling : option Z)
    : stream_result :=
  stream_loop from_lines error_handling 0 (chain_nl source_file) stream_init.

(** A sample [from_lines] for the worked examples: a block of fewer than
    two lines is refused, any other block gives a record that keeps the
    lines after the second as its text.  It reads no index and no times. *)
Definition sample_from_lines (source : list string) : SubRipItem + Error :=
  match source with
  | _ :: _ :: body =>
      inl {| index := 0; start := {| ordinal := 0 |};
             end_ := {| ordinal := 0 |}; text := join_empty body;
             lang_map := ∅ |}
  | _ => inr {| exc_name := "InvalidItem"; args := [] |}
  end.

(** The error-policy scenario of the specification, line by line. *)
Definition sample_lines : list string :=
  ["1" +:+ nl; "00:00:01,000 --> 00:00:02,000" +:+ nl; "Hello" +:+ nl; nl;
   "BAD" +:+ nl; nl;
   "2" +:+ nl; "00:00:03,000 --> 00:00:04,000" +:+ nl; "World" +:+ nl; nl].

(** ** [SubRipFile.write_into] *)

(** The [eol] property; [linesep] is [os.linesep]. *)
Definition _get_eol {E : Type} (linesep : string) (self : SubRipFile E)
    : string :=
  or_str (_eol self) linesep.

Definition output_eol_of {E : Type} (linesep : string) (self : SubRipFile E)
    (eol : option string) : string :=
  or_str eol (_get_eol linesep self).

(** The body of [for item in self]; [output_file] is the text written so
    far and [item_str] is [str(item)]. *)
Definition write_item (item_str : SubRipItem → string) (output_eol : string)
    (output_file : string) (item : SubRipItem) : string :=
  let string_repr := item_str item in
  let string_repr :=
    if negb (String.eqb output_eol nl) then replace string_repr LF output_eol
    else string_repr in
  let output_file := output_file +:+ string_repr in
  if negb (endswith string_repr (output_eol +:+ output_eol)) then
    output_file +:+ output_eol
  else output_file.

Definition write_into (linesep : string) (item_str : SubRipItem → string)
    (self : SubRipFile SubRipItem) (output_file : string)
    (eol : option string) : string :=
  let output_eol := output_eol_of linesep self eol in
  foldl (write_item item_str output_eol) output_file (data self).

(** The pieces of [s] between the occurrences of [c], and the pieces put
    back together with [sep] between them: with these, "every [c] is
    replaced by [sep]" reads [join_with sep (split_on c s)]. *)
Fixpoint split_on (c : ascii) (s : string) : list string :=
  match s with
  | EmptyString => [EmptyString]
  | String a s' =>
      if Ascii.eqb a c then EmptyString :: split_on c s'
      else match split_on c s' with
           | [] => [String a EmptyString]
           | piece :: pieces => String a piece :: pieces
           end
  end.

Fixpoint join_with (sep : string) (l : list string) : string :=
  match l with
  | [] => EmptyString
  | [piece] => piece
  | piece :: pieces => piece +:+ sep +:+ join_with sep pieces
  end.

(** What the serializer is to write for one record: its string
    representation with every line feed replaced by [output_eol], followed
    by one [output_eol] unless that text already ends with two. *)
Definition rendered (item_str : SubRipItem → string) (output_eol : string)
    (item : SubRipItem) : string :=
  let body := join_with output_eol (split_on LF (item_str item)) in
  body +:+ (if endswith body (output_eol +:+ output_eol) then EmptyString
            else output_eol).

(** ** Records shared by reference: [slice], [shift], [clean_indexes] *)

(** A collection holds references to its records, and [slice] hands the same
    references to the clone.  The store maps a reference to the state of the
    record it denotes.  The two time objects of a record are taken to belong
    to that record alone. *)
Definition loc : Type := nat.
Abbreviation heap := (gmap loc SubRipItem).

#[export] Instance SubRipItem_inhabited : Inhabited SubRipItem :=
  populate (new_SubRipItem {| ordinal := 0 |} {| ordinal := 0 |} ∅).

(** A time bound as a caller passes it: an integer count of milliseconds or
    a [SubRipTime] object.  An absent bound ([None]) is [None] here too. *)
Inductive timearg : Type :=
  | Millis (n : Z)
  | TimeObj (t : SubRipTime).

(** Modelled from the spec: [SubRipTime.coerce] builds the time from
    milliseconds directly and leaves a time as it is. *)
Definition coerce (a : timearg) : SubRipTime :=
  match a with
  | Millis n => {| ordinal := n |}
  | TimeObj t => t
  end.

(** The truth value that [if starts_before:] tests.  [None] and the integer
    zero are false.  [time_bool] is the truth value of a [SubRipTime]
    object, which its class decides. *)
Definition truthy (time_bool : SubRipTime → bool) (arg : option timearg)
    : bool :=
  match arg with
  | None => false
  | Some (Millis n) => bool_decide (n ≠ 0)
  | Some (TimeObj t) => time_bool t
  end.

(** Modelled from the spec: times compare by [ordinal]. *)
Definition time_lt (a b : SubRipTime) : Prop := ordinal a < ordinal b.

#[export] Instance time_lt_dec a b : Decision (time_lt a b).
Proof. unfold time_lt. apply _. Defined.

(** One of the four [if bound: clone.data = (i for i in clone.data if ..)]
    statements of [slice]; [P t i] is the comparison of record [i] with the
    coerced bound [t]. *)
Definition keep_if (time_bool : SubRipTime → bool) (arg : option timearg)
    (P : SubRipTime → loc → Prop) `{!∀ t i, Decision (P t i)}
    (data : list loc) : list loc :=
  match arg with
  | Some a =>
      if truthy time_bool arg then filter (P (coerce a)) data else data
  | None => data
  end.

Definition set_data {E : Type} (self : SubRipFile E) (items : list E)
    : SubRipFile E :=
  {| data := items; _eol := _eol self; path := path self;
     encoding := encoding self; lang_stat := lang_stat self;
     langs := langs self |}.

(** [self.slice(starts_before, starts_after, ends_before, ends_after)].  The
    store is read and not written. *)
Definition slice (time_bool : SubRipTime → bool) (h : heap)
    (self : SubRipFile loc)
    (starts_before starts_after ends_before ends_after : option timearg)
    : SubRipFile loc :=
  let clone_data := data self in
  let clone_data :=
    keep_if time_bool starts_before
      (λ t i, time_lt (start (h !!! i)) t) clone_data in
  let clone_data :=
    keep_if time_bool starts_after
      (λ t i, time_lt t (start (h !!! i))) clone_data in
  let clone_data :=
    keep_if time_bool ends_before
      (λ t i, time_lt (end_ (h !!! i)) t) clone_data in
  let clone_data :=
    keep_if time_bool ends_after
      (λ t i, time_lt t (end_ (h !!! i))) clone_data in
  set_data self clone_data.

(** Modelled from the spec: [SubRipItem.shift] applies the time shift to
    the start and to the end of the record, in place.  [time_shift] is
    [SubRipTime.shift] at the arguments of the call. *)
Definition SubRipItem_shift (time_shift : SubRipTime → SubRipTime)
    (item : SubRipItem) : SubRipItem :=
  {| index := index item; start := time_shift (start item);
     end_ := time_shift (end_ item); text := text item;
     lang_map := lang_map item |}.

(** Modelled from the spec: a shift by whole milliseconds with the default
    ratio. *)
Definition shift_by (offset_ms : Z) (t : SubRipTime) : SubRipTime :=
  {| ordinal := ordinal t + offset_ms |}.

(** [self.shift(..)]: [for item in self: item.shift(..)], every call with
    the arguments [shift] was given. *)
Definition shift (time_shift : SubRipTime → SubRipTime) (h : heap)
    (self : SubRipFile loc) : heap :=
  foldl (λ h item, alter (SubRipItem_shift time_shift) item h) h (data self).

(** Modelled from the spec: records order by (start, end); this is the
    [<] that [list.sort] calls. *)
Definition cmpkey (h : heap) (item : loc) : Z * Z :=
  (ordinal (start (h !!! item)), ordinal (end_ (h !!! item))).

Definition key_lt (a b : Z * Z) : Prop :=
  a.1 < b.1 ∨ (a.1 = b.1 ∧ a.2 < b.2).

#[export] Instance key_lt_dec a b : Decision (key_lt a b).
Proof. unfold key_lt. apply _. Defined.

Definition item_lt (h : heap) (a b : loc) : Prop :=
  key_lt (cmpkey h a) (cmpkey h b).

Definition item_le (h : heap) (a b : loc) : Prop := ¬ item_lt h b a.

(** [list.sort] is stable: a record stays in front of the later records it
    does not exceed.  [sort_insert] puts [x] in front of a sorted list whose
    records all came after [x]. *)
Fixpoint sort_insert (h : heap) (x : loc) (l : list loc) : list loc :=
  match l with
  | [] => [x]
  | y :: l' =>
      if decide (item_lt h y x) then y :: sort_insert h x l'
      else x :: y :: l'
  end.

Definition list_sort (h : heap) (l : list loc) : list loc :=
  foldr (sort_insert h) [] l.

(** [item.index = index + 1] *)
Definition set_index (n : Z) (item : SubRipItem) : SubRipItem :=
  {| index := n; start := start item; end_ := end_ item; text := text item;
     lang_map := lang_map item |}.

(** [enumerate(l)] *)
Definition enumerate {A : Type} (l : list A) : list (nat * A) :=
  imap (λ index item, (index, item)) l.

(** [for index, item in enumerate(self): item.index = index + 1] *)
Definition assign_indexes (h : heap) (l : list loc) : heap :=
  foldl (λ h p, alter (set_index (Z.of_nat p.1 + 1)) p.2 h) h (enumerate l).

(** [self.clean_indexes()]: the new store and the collection in its new
    order. *)
Definition clean_indexes (h : heap) (self : SubRipFile loc)
    : heap * SubRipFile loc :=
  let sorted := list_sort h (data self) in
  (assign_indexes h sorted, set_data self sorted).

(** The [index] attributes read through the collection, in order. *)
Definition indexes (h : heap) (self : SubRipFile loc) : list Z :=
  (λ item, index (h !!! item)) <$> data self.

(** *** Reading [slice] as a filter *)

(** The comparison [P] against a bound, for a caller who expects every
    bound that is passed to count. *)
Definition supplied_ok (arg : option timearg) (P : SubRipTime → Prop)
    : Prop :=
  match arg with
  | Some a => P (coerce a)
  | None => True
  end.

(** The comparison [P] against a bound, as [slice] applies it: only when the
    bound is true. *)
Definition truthy_ok (time_bool : SubRipTime → bool) (arg : option timearg)
    (P : SubRipTime → Prop) : Prop :=
  match arg with
  | Some a => if truthy time_bool arg then P (coerce a) else True
  | None => True
  end.

#[export] Instance supplied_ok_dec arg P `{!∀ t, Decision (P t)} :
  Decision (supplied_ok arg P).
Proof. destruct arg; apply _. Defined.

#[export] Instance truthy_ok_dec time_bool arg P `{!∀ t, Decision (P t)} :
  Decision (truthy_ok time_bool arg P).
Proof.
  destruct arg as [a|]; [|apply _]. unfold truthy_ok.
  destruct (truthy time_bool (Some a)); apply _.
Defined.

(** The record [i] passes all four bounds that were passed. *)
Definition in_window_supplied (h : heap)
    (starts_before starts_after ends_before ends_after : option timearg)
    (i : loc) : Prop :=
  supplied_ok starts_before (λ t, time_lt (start (h !!! i)) t) ∧
  supplied_ok starts_after (λ t, time_lt t (start (h !!! i))) ∧
  supplied_ok ends_before (λ t, time_lt (end_ (h !!! i)) t) ∧
  supplied_ok ends_after (λ t, time_lt t (end_ (h !!! i))).

(** The record [i] passes the bounds that are true. *)
Definition in_window (time_bool : SubRipTime → bool) (h : heap)
    (starts_before starts_after ends_before ends_after : option timearg)
    (i : loc) : Prop :=
  truthy_ok time_bool starts_before (λ t, time_lt (start (h !!! i)) t) ∧
  truthy_ok time_bool starts_after (λ t, time_lt t (start (h !!! i))) ∧
  truthy_ok time_bool ends_before (λ t, time_lt (end_ (h !!! i)) t) ∧
  truthy_ok time_bool ends_after (λ t, time_lt t (end_ (h !!! i))).

(** A store with one record, from 0 ms to 1000 ms, and the collection that
    holds it. *)
Definition one_record_heap : heap :=
  {[ 0%nat := new_SubRipItem (at_ms 0) (at_ms 1000) ∅ ]}.

Definition one_record_file : SubRipFile loc := new_SubRipFile [0%nat].

(** The same record held twice by one collection. *)
Definition twice_file : SubRipFile loc := new_SubRipFile [0%nat; 0%nat].

(** *** Reading [clean_indexes] *)

(** The position, counted from [n], of the last occurrence of [item] in
    [l]. *)
Fixpoint last_position (item : loc) (l : list loc) (n : nat) : option nat :=
  match l with
  | [] => None
  | x :: l' =>
      match last_position item l' (S n) with
      | Some p => Some p
      | None => if decide (x = item) then Some n else None
      end
  end.

(** Every reference of the collection denotes a record of the store. *)
Definition allocated (h : heap) (l : list loc) : Prop :=
  ∀ item, item ∈ l → is_Some (h !! item).

(** ** The [eol] property, [_guess_eol] and [read] *)

(** [a or b] where both may be [None]. *)
Definition or_opt (a b : option string) : option string :=
  match a with
  | Some s => if str_bool s then a else b
  | None => b
  end.

(** [_set_eol]: [self._eol = self._eol or eol]. *)
Definition _set_eol {E : Type} (self : SubRipFile E) (eol : option string)
    : SubRipFile E :=
  {| data := data self; _eol := or_opt (_eol self) eol; path := path self;
     encoding := encoding self; lang_stat := lang_stat self;
     langs := langs self |}.

(** [_get_first_line] on a list of lines (or any source that can be read
    again from its start): the first line, or [''] when there is none. *)
Definition _get_first_line (string_iterable : list string) : string :=
  match string_iterable with
  | [] => EmptyString
  | first_line :: _ => first_line
  end.

Definition CRLF : string := String CR nl.
Definition CR_str : string := String CR EmptyString.

(** [_guess_eol]: the first of ['\r\n'], ['\r'], ['\n'] that the first line
    ends with, else [os.linesep]. *)
Definition _guess_eol (linesep : string) (string_iterable : list string)
    : string :=
  let first_line := _get_first_line string_iterable in
  match find (endswith first_line) [CRLF; CR_str; nl] with
  | Some eol => eol
  | None => linesep
  end.

(** [SubRipFile(items, eol, path, encoding)] *)
Definition SubRipFile_init {E : Type} (items : option (list E))
    (eol path : option string) (encoding : string) : SubRipFile E :=
  {| data := default [] items; _eol := eol; path := path;
     encoding := encoding; lang_stat := ∅; langs := [] |}.

(** What a call of [read] leaves: the collection, what went to
    [sys.stderr], and the error that escaped, if one did. *)
Record read_result : Type := {
  read_self : SubRipFile SubRipItem;
  read_stderr : list diagnostic;
  read_error : option Error
}.

(** [self.read(source_file, error_handling)].  [self.extend] takes the
    records from the generator one by one, so those yielded before an error
    are in the list when the error escapes. *)
Definition read (from_lines : list string → SubRipItem + Error)
    (linesep : string) (self : SubRipFile SubRipItem)
    (source_file : list string) (error_handling : option Z) : read_result :=
  let self := _set_eol self (Some (_guess_eol linesep source_file)) in
  match stream from_lines source_file error_handling with
  | Exhausted st =>
      {| read_self := set_data self (data self ++ yielded st);
         read_stderr := stderr st; read_error := None |}
  | Aborted items log e =>
      {| read_self := set_data self (data self ++ items);
         read_stderr := log; read_error := Some e |}
  end.

(** The line boundaries of [str.splitlines], on code points below 256,
    other than ['\r']. *)
Definition is_linebreak (c : ascii) : bool :=
  let n := nat_of_ascii c in
  ((10 <=? n) && (n <=? 12) || (28 <=? n) && (n <=? 30) || (n =? 133))%nat.

(** [s.splitlines(True)]: [cur] is the line being read. *)
Fixpoint splitlines_from (cur : string) (s : string) : list string :=
  match s with
  | EmptyString =>
      match cur with EmptyString => [] | String _ _ => [cur] end
  | String c s' =>
      if Ascii.eqb c CR then
        match s' with
        | String c' s'' =>
            if Ascii.eqb c' LF then
              (cur +:+ CRLF) :: splitlines_from EmptyString s''
            else (cur +:+ CR_str) :: splitlines_from EmptyString s'
        | EmptyString => [cur +:+ CR_str]
        end
      else if is_linebreak c then
        (cur +:+ String c EmptyString) :: splitlines_from EmptyString s'
      else splitlines_from (cur +:+ String c EmptyString) s'
  end.

Definition splitlines (s : string) : list string :=
  splitlines_from EmptyString s.

(** [SubRipFile.from_string(source, **kwargs)]: [error_handling] is popped
    from the keywords ([None] when it is not there) and the others go to
    the constructor. *)
Definition from_string (from_lines : list string → SubRipItem + Error)
    (linesep : string) (source : string)
    (items : option (list SubRipItem)) (eol path : option string)
    (encoding : string) (error_handling : option Z) : read_result :=
  let new_file := SubRipFile_init items eol path encoding in
  read from_lines linesep new_file (splitlines source) error_handling.

(** The [text] property: ['\n'.join(i.text for i in self)]. *)
Definition SubRipFile_text (self : SubRipFile SubRipItem) : string :=
  join_with nl (text <$> data self).

(** ** [at] *)

(** [self.at(timestamp)], called without keyword arguments: [kwargs] is
    then the empty dict, which is false, as [None] is, and so is never
    compared with a time. *)
Definition at_ (time_bool : SubRipTime → bool) (h : heap)
    (self : SubRipFile loc) (timestamp : option timearg) : SubRipFile loc :=
  let time := if truthy time_bool timestamp then timestamp else None in
  slice time_bool h self time None None time.

(** ** [_detect_encoding] *)

(** The byte order marks of the [codecs] module. *)
Definition BOM_UTF32_LE : list Byte.byte :=
  [Byte.xff; Byte.xfe; Byte.x00; Byte.x00].
Definition BOM_UTF32_BE : list Byte.byte :=
  [Byte.x00; Byte.x00; Byte.xfe; Byte.xff].
Definition BOM_UTF16_LE : list Byte.byte := [Byte.xff; Byte.xfe].
Definition BOM_UTF16_BE : list Byte.byte := [Byte.xfe; Byte.xff].
Definition BOM_UTF8 : list Byte.byte := [Byte.xef; Byte.xbb; Byte.xbf].

Definition BOMS : list (list Byte.byte * string) :=
  [(BOM_UTF32_LE, "utf_32_le"); (BOM_UTF32_BE, "utf_32_be");
   (BOM_UTF16_LE, "utf_16_le"); (BOM_UTF16_BE, "utf_16_be");
   (BOM_UTF8, "utf_8")].

(** [max(len(bom) for bom, encoding in BOMS)] *)
Definition BIGGER_BOM : nat := foldr Nat.max 0%nat (length ∘ fst <$> BOMS).

Definition DEFAULT_ENCODING : string := "utf_8".

(** [bytes.startswith] *)
Fixpoint startswith (s pre : list Byte.byte) : bool :=
  match pre, s with
  | [], _ => true
  | p :: pre', b :: s' => Byte.eqb b p && startswith s' pre'
  | _ :: _, [] => false
  end.

(** [_detect_encoding], as a function of the bytes of the file at
    [path]. *)
Definition _detect_encoding (file_bytes : list Byte.byte) : string :=
  let first_chars := take BIGGER_BOM file_bytes in
  match find (λ entry, startswith first_chars entry.1) BOMS with
  | Some entry => entry.2
  | None => DEFAULT_ENCODING
  end.

(** ** Reading [match] *)

(** The time span of a record. *)
Definition span (r : SubRipItem) : Z * Z :=
  (ordinal (start r), ordinal (end_ r)).

(** The language tags of a collection. *)
Definition tags (l : list SubRipItem) : gset string :=
  ⋃ (dom ∘ lang_map <$> l).

(** What holds of the loop state before and after every pass. *)
Definition match_inv (self other : list SubRipItem) (st : match_state)
    : Prop :=
  (st_i st ≤ length self)%nat ∧ (st_j st ≤ length other)%nat ∧
  (length (st_ret st) ≤ st_i st)%nat ∧
  (length (st_ret st) ≤ st_j st)%nat ∧
  span <$> st_ret st `sublist_of` span <$> take (st_i st) self ∧
  Forall (λ r, dom (lang_map r) ⊆ tags self ∪ tags other) (st_ret st).

(** * Properties *)

(** ** [merge_dict] *)

Lemma merge_key_Done d1 d2 key ret :
  key ∈ dom d1 ∪ dom d2 →
  ∃ v, merged_at d1 d2 key = Some v ∧
       merge_key d1 d2 key (Done ret) = Done (<[key := v]> ret).
Proof.
  intros Hin. unfold merge_key, merged_at, contains. cbn.
  apply elem_of_union in Hin. rewrite !elem_of_dom in Hin.
  destruct (d1 !! key) as [v1|] eqn:E1, (d2 !! key) as [v2|] eqn:E2; cbn.
  - eauto.
  - eauto.
  - eauto.
  - destruct Hin as [[? ?]|[? ?]]; done.
Qed.

Lemma merge_dict_fold d1 d2 : ∀ X : gset string,
  X ⊆ dom d1 ∪ dom d2 →
  ∃ ret, set_fold (merge_key d1 d2) (Done ∅) X = Done ret ∧
         ∀ key, ret !! key =
                if decide (key ∈ X) then merged_at d1 d2 key else None.
Proof.
  apply (set_fold_ind_L
    (λ acc (X : gset string), X ⊆ dom d1 ∪ dom d2 →
       ∃ ret, acc = Done ret ∧
              ∀ key, ret !! key =
                     if decide (key ∈ X) then merged_at d1 d2 key else None)).
  - intros _. exists ∅. split; [done|]. intros key.
    rewrite lookup_empty. case_decide; [set_solver|done].
  - intros x Y acc Hx IH Hsub.
    destruct IH as (ret & -> & Hret); [set_solver|].
    destruct (merge_key_Done d1 d2 x ret) as (v & Hv & ->); [set_solver|].
    eexists; split; [done|]. intros key.
    destruct (decide (x = key)) as [->|Hne].
    + rewrite lookup_insert_eq. rewrite decide_True by set_solver. done.
    + rewrite lookup_insert_ne by done. rewrite Hret.
      destruct (decide (key ∈ Y)) as [Hin|Hin].
      * rewrite decide_True; [done|]. apply elem_of_union. by right.
      * rewrite decide_False; [done|]. rewrite elem_of_union.
        intros [Hk|Hk]; [|done]. apply elem_of_singleton in Hk. by subst.
Qed.

Lemma merged_at_None d1 d2 key :
  merged_at d1 d2 key = None ↔ key ∉ dom d1 ∪ dom d2.
Proof.
  unfold merged_at. rewrite not_elem_of_union, !not_elem_of_dom.
  destruct (d1 !! key), (d2 !! key); split; intros H; try done;
    destruct H as [H1 H2]; discriminate.
Qed.

Lemma merge_dict_lookup d1 d2 :
  ∃ ret, merge_dict d1 d2 = Done ret ∧
         ∀ key, ret !! key = merged_at d1 d2 key.
Proof.
  destruct (merge_dict_fold d1 d2 (dom d1 ∪ dom d2)) as (ret & Hf & Hl);
    [done|].
  exists ret. split; [exact Hf|]. intros key. rewrite Hl.
  case_decide as Hin; [done|]. symmetry. by apply merged_at_None.
Qed.

(** C3.  [merge_dict(d1, d2)] returns for every pair of maps.  The key set
    of the result is the union of the two key sets; a key of both maps
    holds the value of [d1] followed by the value of [d2], with nothing
    between them; a key of one map only holds that map's value. *)
Theorem merge_dict_spec (d1 d2 : gmap string string) :
  ∃ ret, merge_dict d1 d2 = Done ret ∧
         dom ret = dom d1 ∪ dom d2 ∧
         ∀ key, ret !! key =
                match d1 !! key, d2 !! key with
                | Some v1, Some v2 => Some (v1 +:+ v2)
                | Some v1, None => Some v1
                | None, Some v2 => Some v2
                | None, None => None
                end.
Proof.
  destruct (merge_dict_lookup d1 d2) as (ret & Hm & Hl).
  exists ret. split; [exact Hm|]. split; [|exact Hl].
  apply set_eq. intros key. rewrite elem_of_dom, Hl.
  rewrite <-not_eq_None_Some. fold (merged_at d1 d2 key).
  rewrite merged_at_None.
  destruct (decide (key ∈ dom d1 ∪ dom d2)); naive_solver.
Qed.

(** ** [match]: the inner loops *)

Lemma getitem_lookup {A} (l : list A) i x :
  l !! i = Some x → getitem l i = Done x.
Proof. unfold getitem. by intros ->. Qed.

Lemma getitem_lt {A} (l : list A) i :
  (i < length l)%nat → ∃ x, l !! i = Some x ∧ getitem l i = Done x.
Proof.
  intros Hi. destruct (lookup_lt_is_Some_2 l i Hi) as [x Hx].
  exists x. split; [done|]. by apply getitem_lookup.
Qed.

Lemma gather_Done fuel y_end xs : ∀ k bag,
  (length xs ≤ k + 1 + fuel)%nat →
  ∃ k', gather fuel y_end xs k bag
          = Done (k', bag ++ take (k' - k) (drop (k + 1) xs)) ∧
        (k ≤ k')%nat ∧
        ((k < length xs)%nat → (k' < length xs)%nat) ∧
        Forall (λ x, ordinal (end_ x) - y_end < 1000)
               (take (k' - k) (drop (k + 1) xs)) ∧
        (∀ nxt, xs !! (k' + 1)%nat = Some nxt →
                ¬ ordinal (end_ nxt) - y_end < 1000).
Proof.
  induction fuel as [|fuel IH]; intros k bag Hfuel.
  - cbn. rewrite bool_decide_eq_false_2 by lia.
    exists k. replace (k - k)%nat with 0%nat by lia. cbn.
    rewrite app_nil_r. repeat split; [lia|done|constructor|].
    intros nxt Hn. apply lookup_lt_Some in Hn. lia.
  - cbn. case_bool_decide as Hlt.
    + destruct (getitem_lt xs (k + 1) Hlt) as (nxt & Hn & ->). cbn.
      case_bool_decide as Hnear.
      * destruct (IH (k + 1)%nat (bag ++ [nxt]))
          as (k' & -> & Hk & Hb & Hall & Hstop); [lia|].
        exists k'.
        assert (take (k' - k) (drop (k + 1) xs)
                = nxt :: take (k' - (k + 1)) (drop (k + 1 + 1) xs)) as ->.
        { rewrite (drop_S _ _ _ Hn).
          replace (k' - k)%nat with (S (k' - (k + 1))) by lia.
          cbn. replace (S (k + 1)) with (k + 1 + 1)%nat by lia. done. }
        rewrite <-app_assoc. cbn.
        repeat split; [lia|lia|by constructor|done].
      * exists k. replace (k - k)%nat with 0%nat by lia. cbn.
        rewrite app_nil_r. repeat split; [lia|done|constructor|].
        intros nxt' Hn'. by simplify_eq.
    + exists k. replace (k - k)%nat with 0%nat by lia. cbn.
      rewrite app_nil_r. repeat split; [lia|done|constructor|].
      intros nxt Hn. apply lookup_lt_Some in Hn. lia.
Qed.

(** What [gather_from] returns: the pointer moves to the last record taken,
    and the bag is the run of records from [k] to there. *)
Lemma gather_from_Done xs k y_end :
  (k < length xs)%nat →
  ∃ k' bag, gather_from xs k y_end = Done (k', bag) ∧
            bag = take (k' + 1 - k) (drop k xs) ∧
            (k ≤ k' < length xs)%nat ∧
            length bag = (k' + 1 - k)%nat ∧
            Forall (λ x, ordinal (end_ x) - y_end < 1000) (drop 1 bag) ∧
            (∀ nxt, xs !! (k' + 1)%nat = Some nxt →
                    ¬ ordinal (end_ nxt) - y_end < 1000).
Proof.
  intros Hk. unfold gather_from.
  destruct (getitem_lt xs k Hk) as (x & Hx & ->). cbn.
  destruct (gather_Done (length xs) y_end xs k [x])
    as (k' & -> & Hle & Hlt & Hall & Hstop); [lia|].
  assert (take (k' + 1 - k) (drop k xs)
          = x :: take (k' - k) (drop (k + 1) xs)) as Hbag.
  { rewrite (drop_S _ _ _ Hx).
    replace (k' + 1 - k)%nat with (S (k' - k)) by lia.
    cbn. replace (S k) with (k + 1)%nat by lia. done. }
  exists k', ([x] ++ take (k' - k) (drop (k + 1) xs)).
  split; [done|]. split; [by rewrite Hbag|].
  split; [lia|]. split; [|split; [by cbn|done]].
  cbn. rewrite length_take, length_drop. specialize (Hlt Hk). lia.
Qed.

Lemma next_ends_far_Done xs k y_end :
  ∃ b, next_ends_far xs k y_end = Done b.
Proof.
  unfold next_ends_far. case_bool_decide as Hlt; [|eauto].
  destruct (getitem_lt xs (k + 1) Hlt) as (nxt & _ & ->). cbn. eauto.
Qed.

Lemma merge_dict_Done d1 d2 : ∃ ret, merge_dict d1 d2 = Done ret.
Proof. destruct (merge_dict_lookup d1 d2) as (ret & H & _). eauto. Qed.

Lemma reduce_merge_dict_Done x xs :
  ∃ ret, reduce merge_dict (x :: xs) = Done ret.
Proof.
  cbn. revert x. induction xs as [|y xs IH]; intros x; cbn; [eauto|].
  destruct (merge_dict_Done x y) as [r ->]. apply IH.
Qed.

(** ** [match]: one pass of the outer loop *)

(** The emission step of branches 1.2 and 1.3 never fails on a bag that is
    not empty. *)
Lemma emit_Done (near : bool) ret (bag : list SubRipItem) s e :
  bag ≠ [] →
  ∃ ret', (if near
           then l_map ← reduce merge_dict (lang_map <$> bag);
                Done (ret ++ [new_SubRipItem s e l_map])
           else Done ret) = Done ret'.
Proof.
  intros Hbag. destruct near; [|eauto].
  destruct bag as [|x bag]; [done|]. cbn [fmap list_fmap].
  destruct (reduce_merge_dict_Done (lang_map x) (lang_map <$> bag)) as [r Hr].
  exists (ret ++ [new_SubRipItem s e r]).
  change (list_fmap _ _ lang_map bag) with (lang_map <$> bag).
  by rewrite Hr.
Qed.

Lemma group_other_Done self other st :
  (st_i st < length self)%nat → (st_j st < length other)%nat →
  ∃ st', group_other self other st = Done st' ∧
         st_i st' = (st_i st + 1)%nat ∧ (st_j st + 1 ≤ st_j st')%nat.
Proof.
  intros Hi Hj. unfold group_other.
  destruct (getitem_lt self _ Hi) as (si & _ & ->). cbn.
  destruct (next_ends_far_Done other (st_j st) (ordinal (end_ si)))
    as [far ->]. cbn.
  destruct far; [eexists; split; [done|]; cbn; lia|].
  destruct (gather_from_Done other (st_j st) (ordinal (end_ si)) Hj)
    as (j' & bag & -> & _ & Hj' & Hlen & _). cbn.
  destruct (getitem_lt other j') as (oj' & _ & ->); [lia|]. cbn.
  destruct (emit_Done
              (bool_decide
                 (Z.abs (ordinal (end_ oj') - ordinal (end_ si)) < 1000))
              (st_ret st) bag (start si) (end_ si)) as [ret' ->].
  { intros ->. cbn in Hlen. lia. }
  cbn. eexists; split; [done|]; cbn; lia.
Qed.

Lemma group_self_Done self other st :
  (st_i st < length self)%nat → (st_j st < length other)%nat →
  ∃ st', group_self self other st = Done st' ∧
         (st_i st + 1 ≤ st_i st')%nat ∧ st_j st' = (st_j st + 1)%nat.
Proof.
  intros Hi Hj. unfold group_self.
  destruct (getitem_lt other _ Hj) as (oj & _ & ->). cbn.
  destruct (next_ends_far_Done self (st_i st) (ordinal (end_ oj)))
    as [far ->]. cbn.
  destruct far; [eexists; split; [done|]; cbn; lia|].
  destruct (gather_from_Done self (st_i st) (ordinal (end_ oj)) Hi)
    as (i' & bag & -> & _ & Hi' & Hlen & _). cbn.
  destruct (getitem_lt self i') as (si' & _ & ->); [lia|]. cbn.
  destruct (emit_Done
              (bool_decide
                 (Z.abs (ordinal (end_ si') - ordinal (end_ oj)) < 1000))
              (st_ret st) bag (start si') (end_ si')) as [ret' ->].
  { intros ->. cbn in Hlen. lia. }
  cbn. eexists; split; [done|]; cbn; lia.
Qed.

Lemma running_true self other st :
  running self other st = true ↔
  (st_i st < length self)%nat ∧ (st_j st < length other)%nat.
Proof.
  unfold running. rewrite andb_true_iff, !bool_decide_eq_true. done.
Qed.

(** Every pass ends normally and moves at least one pointer forward. *)
Lemma match_iter_progress self other st :
  running self other st = true →
  ∃ st', match_iter self other st = Done st' ∧
         (st_i st ≤ st_i st')%nat ∧ (st_j st ≤ st_j st')%nat ∧
         (st_i st + st_j st < st_i st' + st_j st')%nat.
Proof.
  rewrite running_true. intros [Hi Hj]. unfold match_iter.
  destruct (getitem_lt self _ Hi) as (si & _ & ->).
  destruct (getitem_lt other _ Hj) as (oj & _ & ->).
  cbn [mbind outcome_bind].
  repeat case_bool_decide.
  - destruct (reduce_merge_dict_Done (lang_map si) [lang_map oj]) as [r ->].
    cbn. eexists; split; [done|]; cbn; lia.
  - destruct (group_other_Done self other st Hi Hj) as (st' & -> & ? & ?).
    exists st'. split; [done|]. lia.
  - destruct (group_self_Done self other st Hi Hj) as (st' & -> & ? & ?).
    exists st'. split; [done|]. lia.
  - lia.
  - eexists; split; [done|]; cbn; lia.
  - eexists; split; [done|]; cbn; lia.
Qed.

(** The outer loop ends within as many passes as there are records left in
    the two collections. *)
Lemma match_loop_Done self other fuel : ∀ st,
  (length self - st_i st + (length other - st_j st) ≤ fuel)%nat →
  ∃ st', match_loop fuel self other st = Done st'.
Proof.
  induction fuel as [|fuel IH]; intros st Hfuel.
  - cbn. destruct (running self other st) eqn:Hrun; [|eauto].
    apply running_true in Hrun. lia.
  - cbn. destruct (running self other st) eqn:Hrun; [|eauto].
    destruct (match_iter_progress self other st Hrun)
      as (st' & -> & Hi & Hj & Hsum).
    cbn. apply IH. apply running_true in Hrun. lia.
Qed.

(** ** [match]: the claims *)

(** C1 (the code departs from the claim).  On the alignment scenario
    [match] emits exactly one record, from 1000 to 3000, but its [lang_map]
    is [{"fr": "bonjourmonde"}]: branch 1.2 merges the maps of [other_bag]
    only, so the ["en"] entry of the [self] record is missing from the
    merged record. *)
Theorem match_scenario_loses_self_language :
  ∃ ret r,
    SubRipFile_match scenario_self scenario_other = Done ret ∧
    data ret = [r] ∧
    ordinal (start r) = 1000 ∧ ordinal (end_ r) = 3000 ∧
    lang_map r = {["fr" := "bonjourmonde"]} ∧
    lang_map r !! "en" = None ∧
    lang_map r ≠ <["en" := "hi"]> {["fr" := "bonjourmonde"]}.
Proof.
  eexists _, _. split; [vm_compute; reflexivity|].
  split; [reflexivity|]. repeat split.
  intros Heq. apply (f_equal (λ m : gmap string string, m !! "en")) in Heq.
  vm_compute in Heq. discriminate Heq.
Qed.

(** C2 (as stated, refuted).  On the alignment scenario the first pass takes
    branch 1.2 and leaves [j] at 2, not at 1: the inner loop has moved [j]
    over the whole group, and the outer loop stops without a second pass. *)
Lemma branch_1_2_one_record_counterexample :
  ¬ (∀ self other st st',
       in_branch_1_2 self other st = true →
       match_iter self other st = Done st' →
       st_i st' = (st_i st + 1)%nat ∧ st_j st' = (st_j st + 1)%nat).
Proof.
  intros Hclaim.
  destruct (Hclaim scenario_self scenario_other match_init
              {| st_i := 1; st_j := 2;
                 st_ret := [new_SubRipItem (at_ms 1000) (at_ms 3000)
                              {["fr" := "bonjourmonde"]}] |})
    as [_ Hj]; [reflexivity|vm_compute; reflexivity|].
  cbn in Hj. discriminate Hj.
Qed.

Lemma in_branch_1_2_true self other st :
  in_branch_1_2 self other st = true →
  ∃ si oj, self !! st_i st = Some si ∧ other !! st_j st = Some oj ∧
           Z.abs (ordinal (start si) - ordinal (start oj)) ≤ 1000 ∧
           ordinal (end_ si) - ordinal (end_ oj) > 1000.
Proof.
  unfold in_branch_1_2.
  destruct (self !! st_i st) as [si|]; [|done].
  destruct (other !! st_j st) as [oj|]; [|done].
  rewrite andb_true_iff, !bool_decide_eq_true. eauto.
Qed.

(** C2 (amended).  A pass through branch 1.2 moves [i] by one.  When the
    guard finds the next record of [other] ending more than 1000 ms after
    [self[i]], [j] moves by one and nothing is emitted.  Otherwise the pass
    consumes the whole group: [other_bag] is the run of records of [other]
    that starts at [j], [j] moves by the length of that run, and the record
    then under [j], if there is one, is not part of the group. *)
Theorem branch_1_2_consumes_group self other st :
  in_branch_1_2 self other st = true →
  ∃ si st',
    self !! st_i st = Some si ∧
    match_iter self other st = Done st' ∧
    st_i st' = (st_i st + 1)%nat ∧
    ((next_ends_far other (st_j st) (ordinal (end_ si)) = Done true ∧
      st_j st' = (st_j st + 1)%nat ∧ st_ret st' = st_ret st) ∨
     (∃ j' other_bag,
        next_ends_far other (st_j st) (ordinal (end_ si)) = Done false ∧
        gather_from other (st_j st) (ordinal (end_ si))
          = Done (j', other_bag) ∧
        other_bag = take (length other_bag) (drop (st_j st) other) ∧
        (1 ≤ length other_bag)%nat ∧
        st_j st' = (st_j st + length other_bag)%nat ∧
        ∀ nxt, other !! st_j st' = Some nxt →
               ¬ ordinal (end_ nxt) - ordinal (end_ si) < 1000)).
Proof.
  intros Hbr.
  destruct (in_branch_1_2_true _ _ _ Hbr) as (si & oj & Hsi & Hoj & Hsd & Hed).
  exists si. unfold match_iter, group_other.
  rewrite (getitem_lookup _ _ _ Hsi), (getitem_lookup _ _ _ Hoj).
  cbn [mbind outcome_bind].
  rewrite bool_decide_eq_true_2 by done.
  rewrite bool_decide_eq_false_2 by lia.
  rewrite bool_decide_eq_true_2 by done.
  cbn [mbind outcome_bind].
  destruct (next_ends_far_Done other (st_j st) (ordinal (end_ si)))
    as [far ->]. cbn [mbind outcome_bind].
  destruct far.
  { eexists. split; [done|]. split; [done|]. split; [done|]. left. done. }
  assert (st_j st < length other)%nat as Hj by (by eapply lookup_lt_Some).
  destruct (gather_from_Done other (st_j st) (ordinal (end_ si)) Hj)
    as (j' & bag & -> & Hbag & Hj' & Hlen & _ & Hstop).
  cbn [mbind outcome_bind].
  destruct (getitem_lt other j') as (oj' & _ & ->); [lia|].
  cbn [mbind outcome_bind].
  destruct (emit_Done
              (bool_decide
                 (Z.abs (ordinal (end_ oj') - ordinal (end_ si)) < 1000))
              (st_ret st) bag (start si) (end_ si)) as [ret' ->].
  { intros ->. cbn in Hlen. lia. }
  cbn [mbind outcome_bind].
  eexists. split; [done|]. split; [done|]. split; [done|]. right.
  exists j', bag. split; [done|]. split; [done|].
  split; [by rewrite Hlen|]. split; [lia|]. cbn. split; [lia|].
  exact Hstop.
Qed.

Lemma branch_1_2_consumes_group_witness :
  in_branch_1_2 scenario_self scenario_other match_init = true ∧
  ∃ si st',
    scenario_self !! st_i match_init = Some si ∧
    match_iter scenario_self scenario_other match_init = Done st' ∧
    st_i st' = (st_i match_init + 1)%nat ∧
    ((next_ends_far scenario_other (st_j match_init) (ordinal (end_ si))
        = Done true ∧
      st_j st' = (st_j match_init + 1)%nat ∧
      st_ret st' = st_ret match_init) ∨
     (∃ j' other_bag,
        next_ends_far scenario_other (st_j match_init) (ordinal (end_ si))
          = Done false ∧
        gather_from scenario_other (st_j match_init) (ordinal (end_ si))
          = Done (j', other_bag) ∧
        other_bag = take (length other_bag)
                         (drop (st_j match_init) scenario_other) ∧
        (1 ≤ length other_bag)%nat ∧
        st_j st' = (st_j match_init + length other_bag)%nat ∧
        ∀ nxt, scenario_other !! st_j st' = Some nxt →
               ¬ ordinal (end_ nxt) - ordinal (end_ si) < 1000)).
Proof.
  split; [reflexivity|].
  apply (branch_1_2_consumes_group scenario_self scenario_other match_init).
  reflexivity.
Defined.

(** C5.  [match] returns for every pair of collections: the outer loop is
    over within [len(self) + len(other)] passes; every pass ends normally,
    lowers neither pointer and raises at least one; and the loop is left
    as soon as one pointer is at the end of its collection. *)
Theorem match_terminates (self other : list SubRipItem) :
  (∃ ret, SubRipFile_match self other = Done ret) ∧
  (∀ fuel st,
     (length self - st_i st + (length other - st_j st) ≤ fuel)%nat →
     ∃ st', match_loop fuel self other st = Done st') ∧
  (∀ st, running self other st = true →
     ∃ st', match_iter self other st = Done st' ∧
            (st_i st ≤ st_i st')%nat ∧ (st_j st ≤ st_j st')%nat ∧
            (st_i st + st_j st < st_i st' + st_j st')%nat) ∧
  (∀ fuel st,
     (length self ≤ st_i st)%nat ∨ (length other ≤ st_j st)%nat →
     match_loop fuel self other st = Done st).
Proof.
  split; [|split; [|split]].
  - unfold SubRipFile_match.
    destruct (match_loop_Done self other (length self + length other)
                match_init) as [st ->]; [cbn; lia|].
    cbn. eauto.
  - intros fuel st. apply match_loop_Done.
  - apply match_iter_progress.
  - intros fuel st Hend.
    assert (running self other st = false) as Hrun.
    { apply not_true_is_false. rewrite running_true. lia. }
    destruct fuel; cbn; by rewrite Hrun.
Qed.

Lemma match_terminates_witness :
  running scenario_self scenario_other match_init = true ∧
  ∃ st', match_iter scenario_self scenario_other match_init = Done st' ∧
         (st_i match_init ≤ st_i st')%nat ∧
         (st_j match_init ≤ st_j st')%nat ∧
         (st_i match_init + st_j match_init < st_i st' + st_j st')%nat.
Proof.
  split; [reflexivity|].
  apply (match_terminates scenario_self scenario_other). reflexivity.
Defined.

(** ** Counting occurrences, and the language statistics of [match] *)

Lemma occurrences_cons {A} `{EqDecision A} (key x : A) l :
  occurrences key (x :: l)
  = ((if decide (x = key) then 1 else 0) + occurrences key l)%nat.
Proof.
  unfold occurrences. rewrite filter_cons. by case_decide.
Qed.

Lemma occurrences_app {A} `{EqDecision A} (key : A) l1 l2 :
  occurrences key (l1 ++ l2)
  = (occurrences key l1 + occurrences key l2)%nat.
Proof. unfold occurrences. by rewrite filter_app, length_app. Qed.

Lemma occurrences_not_in {A} `{EqDecision A} (key : A) l :
  key ∉ l → occurrences key l = 0%nat.
Proof.
  induction l as [|x l IH]; [done|]. rewrite not_elem_of_cons.
  intros [Hne Hl]. rewrite occurrences_cons, IH by done.
  by rewrite decide_False.
Qed.

Lemma occurrences_NoDup {A} `{EqDecision A} (key : A) l :
  NoDup l → occurrences key l = if decide (key ∈ l) then 1%nat else 0%nat.
Proof.
  induction 1 as [|x l Hx Hnd IH]; [done|].
  rewrite occurrences_cons. destruct (decide (x = key)) as [->|Hne].
  - rewrite occurrences_not_in by done.
    rewrite decide_True by (by left). done.
  - rewrite IH. cbn. destruct (decide (key ∈ l)).
    + rewrite decide_True by (by right). done.
    + rewrite decide_False; [done|]. rewrite not_elem_of_cons. done.
Qed.

Lemma elem_of_keys {V} (d : gmap string V) key :
  key ∈ keys d ↔ is_Some (d !! key).
Proof.
  unfold keys. rewrite list_elem_of_fmap. split.
  - intros ([k v] & -> & Hin). apply elem_of_map_to_list in Hin. by eexists.
  - intros [v Hv]. exists (key, v). split; [done|].
    by apply elem_of_map_to_list.
Qed.

Lemma NoDup_keys {V} (d : gmap string V) : NoDup (keys d).
Proof. apply NoDup_fst_map_to_list. Qed.

(** A [Counter] holds, for each element it has seen, how often it saw it. *)
Lemma Counter_fold l : ∀ (c : gmap string nat) key,
  foldl (λ c k, <[k := S (default O (c !! k))]> c) c l !! key
  = if decide (key ∈ l)
    then Some (default O (c !! key) + occurrences key l)%nat
    else c !! key.
Proof.
  induction l as [|x l IH]; intros c key; [done|].
  cbn [foldl]. rewrite IH, occurrences_cons.
  destruct (decide (x = key)) as [->|Hne].
  - rewrite lookup_insert_eq.
    rewrite (decide_True (P := key ∈ key :: l)) by (by left).
    case_decide as Hin.
    + destruct (c !! key); cbn; f_equal; lia.
    + rewrite occurrences_not_in by done.
      destruct (c !! key); cbn; f_equal; lia.
  - rewrite lookup_insert_ne by done.
    destruct (decide (key ∈ l)) as [Hin|Hin].
    + rewrite decide_True by (by right). done.
    + rewrite decide_False; [done|]. rewrite not_elem_of_cons. naive_solver.
Qed.

Lemma Counter_lookup l key :
  Counter l !! key
  = if decide (key ∈ l) then Some (occurrences key l) else None.
Proof. unfold Counter. rewrite Counter_fold, lookup_empty. done. Qed.

Lemma Counter_default l key :
  default O (Counter l !! key) = occurrences key l.
Proof.
  rewrite Counter_lookup. case_decide; [done|].
  by rewrite occurrences_not_in.
Qed.

(** A tag occurs among the chained key lists once for every record that
    has it. *)
Lemma occurrences_chain key (l : list SubRipItem) :
  occurrences key (concat (keys ∘ lang_map <$> l))
  = length (records_with key l).
Proof.
  unfold records_with. induction l as [|r l IH]; [done|].
  cbn [fmap list_fmap concat]. rewrite occurrences_app.
  change (list_fmap _ _ (keys ∘ lang_map) l) with (keys ∘ lang_map <$> l).
  rewrite IH, filter_cons. cbn [compose].
  rewrite occurrences_NoDup by apply NoDup_keys.
  destruct (decide (is_Some (lang_map r !! key))) as [Hs|Hs].
  - rewrite decide_True by (by apply elem_of_keys). done.
  - rewrite decide_False by (by rewrite elem_of_keys). done.
Qed.

Lemma with_lang_stat_langs (ret : SubRipFile SubRipItem) key :
  key ∈ langs (with_lang_stat ret) ↔
  (length (data ret) / 10 < length (records_with key (data ret)))%nat.
Proof.
  unfold with_lang_stat. cbn [langs].
  rewrite list_elem_of_filter, Counter_default, occurrences_chain.
  unfold tenth. split; [by intros [Hlt _]|]. intros Hlt. split; [done|].
  apply elem_of_keys. rewrite Counter_lookup.
  case_decide as Hin; [done|].
  apply occurrences_not_in in Hin. rewrite occurrences_chain in Hin. lia.
Qed.

(** C9.  The merged collection that [match] returns holds the records the
    loop emitted, unchanged and all of them, and its [langs] lists, once
    each, exactly the tags that more than [floor(N/10)] of its [N] records
    carry. *)
Theorem match_langs (self other : list SubRipItem) :
  ∃ st ret,
    match_loop (length self + length other) self other match_init = Done st ∧
    SubRipFile_match self other = Done ret ∧
    data ret = st_ret st ∧
    NoDup (langs ret) ∧
    ∀ key, key ∈ langs ret ↔
           (length (data ret) / 10
            < length (records_with key (data ret)))%nat.
Proof.
  destruct (match_loop_Done self other (length self + length other)
              match_init) as [st Hst]; [cbn; lia|].
  exists st, (with_lang_stat (new_SubRipFile (st_ret st))).
  split; [done|]. split; [unfold SubRipFile_match; by rewrite Hst|].
  split; [done|]. split.
  - unfold with_lang_stat. cbn [langs]. apply NoDup_filter, NoDup_keys.
  - intros key. exact (with_lang_stat_langs (new_SubRipFile (st_ret st)) key).
Qed.

Lemma match_langs_witness :
  ∃ ret, SubRipFile_match scenario_self scenario_other = Done ret ∧
         "fr" ∈ langs ret.
Proof.
  destruct (match_langs scenario_self scenario_other)
    as (st & ret & _ & Hmatch & _ & _ & Hlangs).
  exists ret. split; [exact Hmatch|].
  apply Hlangs. vm_compute in Hmatch. injection Hmatch as <-.
  vm_compute. constructor.
Defined.

(** ** [stream] *)

Lemma stream_loop_app from_lines eh l1 : ∀ l2 index st,
  stream_loop from_lines eh index (l1 ++ l2) st
  = match stream_loop from_lines eh index l1 st with
    | Exhausted st' =>
        stream_loop from_lines eh (index + length l1) l2 st'
    | Aborted items log e => Aborted items log e
    end.
Proof.
  induction l1 as [|line l1 IH]; intros l2 index st.
  - cbn. by rewrite Nat.add_0_r.
  - cbn [app stream_loop length].
    replace (index + S (length l1))%nat with (S index + length l1)%nat by lia.
    destruct (str_bool (strip line)); [apply IH|].
    destruct (negb (bool_decide (string_buffer st = []))
              && forallb str_bool (string_buffer st)); [|apply IH].
    destruct (from_lines (string_buffer st)) as [item|error]; [apply IH|].
    destruct (_handle_error _ eh index (stderr st)); [done|apply IH].
Qed.

(** Lines that are not blank only fill the buffer. *)
Lemma stream_loop_block from_lines eh block : ∀ index st,
  Forall (λ line, str_bool (strip line) = true) block →
  stream_loop from_lines eh index block st
  = Exhausted {| string_buffer := string_buffer st ++ block;
                 yielded := yielded st; stderr := stderr st |}.
Proof.
  induction block as [|line block IH]; intros index st Hall.
  - cbn. rewrite app_nil_r. by destruct st.
  - apply Forall_cons in Hall as [Hline Hall]. cbn [stream_loop].
    rewrite Hline, IH by done. cbn. by rewrite <-app_assoc.
Qed.

Lemma strip_nonempty line :
  str_bool (strip line) = true → str_bool line = true.
Proof. destruct line; [|done]. by vm_compute. Qed.

Lemma all_nonblank block :
  Forall (λ line, str_bool (strip line) = true) block →
  forallb str_bool block = true.
Proof.
  induction 1 as [|line block Hline _ IH]; [done|].
  cbn. by rewrite (strip_nonempty _ Hline), IH.
Qed.

(** C4.  Under [ERROR_RAISE], let the lines read so far ([pre]) have been
    processed without an error and up to a block boundary, with [items]
    yielded.  If the next block, closed by the blank line at 0-based
    position [len(pre) + len(block)], is refused by [from_lines], then
    [stream] stops there whatever follows: the consumer has received
    [items], and the error that leaves the generator carries that position
    in front of its own arguments and the raw text of the block behind
    them. *)
Theorem stream_raise_aborts (from_lines : list string → SubRipItem + Error)
    (source_file pre block rest : list string) (blank : string)
    (items : list SubRipItem) (log : list diagnostic) (e : Error) :
  chain_nl source_file = pre ++ block ++ blank :: rest →
  stream_loop from_lines (Some ERROR_RAISE) 0 pre stream_init
    = Exhausted {| string_buffer := []; yielded := items; stderr := log |} →
  block ≠ [] →
  Forall (λ line, str_bool (strip line) = true) block →
  str_bool (strip blank) = false →
  from_lines block = inr e →
  stream from_lines source_file (Some ERROR_RAISE)
  = Aborted items log
      {| exc_name := exc_name e;
         args := PyInt (Z.of_nat (length pre + length block))
                 :: args e ++ [PyStr (join_empty block)] |}.
Proof.
  intros Hsplit Hpre Hne Hblock Hblank Hbad.
  unfold stream. rewrite Hsplit.
  rewrite stream_loop_app, Hpre.
  rewrite stream_loop_app, stream_loop_block by done.
  cbn [stream_loop string_buffer yielded stderr app].
  rewrite Hblank.
  rewrite bool_decide_eq_false_2 by done.
  rewrite all_nonblank by done. cbn [negb andb].
  rewrite Hbad. unfold _handle_error.
  rewrite bool_decide_eq_true_2 by done.
  cbn [exc_name args]. reflexivity.
Qed.

Lemma stream_raise_aborts_witness :
  stream sample_from_lines sample_lines (Some ERROR_RAISE)
  = Aborted
      [{| index := 0; start := {| ordinal := 0 |};
          end_ := {| ordinal := 0 |}; text := "Hello" +:+ nl;
          lang_map := ∅ |}]
      []
      {| exc_name := "InvalidItem";
         args := [PyInt 5; PyStr ("BAD" +:+ nl)] |}.
Proof.
  apply (stream_raise_aborts sample_from_lines sample_lines
           (take 4 sample_lines) ["BAD" +:+ nl] (drop 6 sample_lines ++ [nl])
           nl _ []
           {| exc_name := "InvalidItem"; args := [] |}).
  - reflexivity.
  - vm_compute. reflexivity.
  - discriminate.
  - repeat constructor.
  - reflexivity.
  - reflexivity.
Defined.

(** ** [write_into] *)

Lemma append_String a s t : String a s +:+ t = String a (s +:+ t).
Proof. reflexivity. Qed.

Lemma append_nil_r s : s +:+ EmptyString = s.
Proof.
  induction s as [|a s IH]; [done|]. by rewrite append_String, IH.
Qed.

Lemma append_assoc s1 s2 s3 : (s1 +:+ s2) +:+ s3 = s1 +:+ (s2 +:+ s3).
Proof.
  induction s1 as [|a s1 IH]; [done|]. by rewrite !append_String, IH.
Qed.

Lemma endswith_true s suffix :
  endswith s suffix = true ↔ ∃ front, s = front +:+ suffix.
Proof.
  induction s as [|a s IH]; cbn [endswith].
  - rewrite orb_false_r, String.eqb_eq. split.
    + intros <-. by exists EmptyString.
    + intros [front Hf]. destruct front; [done|discriminate Hf].
  - rewrite orb_true_iff, String.eqb_eq, IH. split.
    + intros [<-|[front ->]]; [by exists EmptyString|].
      by exists (String a front).
    + intros [front Hf]. destruct front as [|b front].
      * left. done.
      * right. exists front. rewrite append_String in Hf. by simplify_eq.
Qed.

Lemma split_on_cons c s : ∃ piece pieces, split_on c s = piece :: pieces.
Proof.
  destruct s as [|a s]; cbn; [eauto|].
  destruct (Ascii.eqb a c); [eauto|]. destruct (split_on c s); eauto.
Qed.

Lemma join_with_cons sep piece pieces :
  pieces ≠ [] →
  join_with sep (piece :: pieces) = piece +:+ sep +:+ join_with sep pieces.
Proof. by destruct pieces. Qed.

Lemma join_with_String sep a piece pieces :
  join_with sep (String a piece :: pieces)
  = String a (join_with sep (piece :: pieces)).
Proof. by destruct pieces. Qed.

(** [replace] puts [new] where [old] was and keeps the rest. *)
Lemma replace_join s old new :
  replace s old new = join_with new (split_on old s).
Proof.
  induction s as [|a s IH]; [done|]. cbn [replace split_on].
  destruct (Ascii.eqb a old).
  - destruct (split_on_cons old s) as (piece & pieces & Hs).
    rewrite IH, Hs, (join_with_cons new EmptyString (piece :: pieces)) by done.
    reflexivity.
  - destruct (split_on_cons old s) as (piece & pieces & Hs).
    rewrite IH, Hs, join_with_String. reflexivity.
Qed.

(** Replacing a line feed by a line feed changes nothing, so the statement
    that skips the replacement when [output_eol] is ['\n'] loses nothing. *)
Lemma replace_LF_nl s : replace s LF nl = s.
Proof.
  induction s as [|a s IH]; [done|]. cbn [replace].
  destruct (Ascii.eqb a LF) eqn:Ha.
  - apply Ascii.eqb_eq in Ha as ->. unfold nl at 1.
    rewrite append_String. by rewrite IH.
  - by rewrite IH.
Qed.

Lemma write_item_rendered item_str output_eol output_file item :
  write_item item_str output_eol output_file item
  = output_file +:+ rendered item_str output_eol item.
Proof.
  unfold write_item, rendered. rewrite <-replace_join.
  assert ((if negb (String.eqb output_eol nl)
           then replace (item_str item) LF output_eol else item_str item)
          = replace (item_str item) LF output_eol) as ->.
  { destruct (String.eqb output_eol nl) eqn:He; [|done].
    apply String.eqb_eq in He as ->. cbn [negb]. by rewrite replace_LF_nl. }
  destruct (endswith _ _); cbn [negb].
  - by rewrite append_nil_r.
  - by rewrite append_assoc.
Qed.

Lemma write_items_rendered item_str output_eol items : ∀ output_file,
  foldl (write_item item_str output_eol) output_file items
  = output_file +:+ join_empty (rendered item_str output_eol <$> items).
Proof.
  induction items as [|item items IH]; intros output_file.
  - cbn [foldl fmap list_fmap join_empty foldr]. by rewrite append_nil_r.
  - cbn [foldl fmap list_fmap join_empty foldr].
    rewrite IH, write_item_rendered, append_assoc. done.
Qed.

(** C6.  [write_into] appends to the output, record by record and in
    order, the string representation of the record with every line feed
    replaced by the configured eol, followed by one eol unless that text
    already ends with two of them.  The eol is the [eol] argument when one
    is given and not empty. *)
Theorem write_into_rendered (linesep : string)
    (item_str : SubRipItem → string) (self : SubRipFile SubRipItem)
    (output_file : string) (eol : option string) :
  let output_eol := output_eol_of linesep self eol in
  write_into linesep item_str self output_file eol
  = output_file +:+ join_empty (rendered item_str output_eol <$> data self)
  ∧ (∀ item,
       let body := join_with output_eol (split_on LF (item_str item)) in
       body = replace (item_str item) LF output_eol ∧
       rendered item_str output_eol item
       = body +:+ (if endswith body (output_eol +:+ output_eol) then EmptyString
                   else output_eol))
  ∧ (∀ body, endswith body (output_eol +:+ output_eol) = true ↔
             ∃ front, body = front +:+ (output_eol +:+ output_eol))
  ∧ (∀ c s, eol = Some (String c s) → output_eol = String c s).
Proof.
  intros output_eol. split; [|split; [|split]].
  - unfold write_into. apply write_items_rendered.
  - intros item body. split; [|done]. unfold body. by rewrite replace_join.
  - intros body. apply endswith_true.
  - intros c s ->. done.
Qed.

Lemma write_into_rendered_witness :
  output_eol_of nl (new_SubRipFile scenario_self) (Some (String CR nl))
  = String CR nl.
Proof.
  exact (proj2 (proj2 (proj2 (write_into_rendered nl text
                         (new_SubRipFile scenario_self) EmptyString
                         (Some (String CR nl)))))
               CR nl eq_refl).
Defined.

(** ** [slice] and [shift] *)

Lemma filter_all {A} (P : A → Prop) `{!∀ x, Decision (P x)} (l : list A) :
  (∀ x, P x) → filter P l = l.
Proof.
  intros HP. induction l as [|x l IH]; [done|].
  rewrite filter_cons, decide_True by done. by rewrite IH.
Qed.

(** Each statement of [slice] filters by the comparison when the bound is
    true and keeps the list otherwise. *)
Lemma keep_if_filter time_bool arg (P : SubRipTime → loc → Prop)
    `{!∀ t i, Decision (P t i)} (l : list loc) :
  keep_if time_bool arg P l
  = filter (λ i, truthy_ok time_bool arg (λ t, P t i)) l.
Proof.
  unfold keep_if. destruct arg as [a|].
  - destruct (truthy time_bool (Some a)) eqn:Htrue.
    + apply list_filter_iff. intros i. unfold truthy_ok. by rewrite Htrue.
    + rewrite filter_all; [done|]. intros i. unfold truthy_ok.
      by rewrite Htrue.
  - by rewrite filter_all.
Qed.

Lemma keep_if_falsy time_bool arg (P : SubRipTime → loc → Prop)
    `{!∀ t i, Decision (P t i)} (l : list loc) :
  truthy time_bool arg = false →
  keep_if time_bool arg P l = keep_if time_bool None P l.
Proof. unfold keep_if. destruct arg; [|done]. by intros ->. Qed.

Lemma slice_data time_bool h self sb sa eb ea :
  data (slice time_bool h self sb sa eb ea)
  = filter (in_window time_bool h sb sa eb ea) (data self).
Proof.
  unfold slice, set_data. cbn [data].
  rewrite !keep_if_filter, !list_filter_filter.
  apply list_filter_iff. intros i. unfold in_window. tauto.
Qed.

(** What a run of in-place updates leaves in the store: each record is
    updated once for every time the list names it. *)
Lemma alter_all_lookup (f : SubRipItem → SubRipItem) (l : list loc) :
  ∀ (h : heap) (item : loc),
  foldl (λ h item, alter f item h) h l !! item
  = Nat.iter (occurrences item l) f <$> h !! item.
Proof.
  induction l as [|x l IH]; intros h item.
  - cbn. by destruct (h !! item).
  - cbn [foldl]. rewrite IH, occurrences_cons, lookup_alter.
    destruct (decide (x = item)) as [->|Hne].
    + rewrite <-option_fmap_compose. apply option_fmap_ext.
      intros r. unfold compose. by rewrite <-Nat.iter_succ_r.
    + done.
Qed.

Lemma occurrences_pos {A} `{EqDecision A} (x : A) l :
  x ∈ l → (1 ≤ occurrences x l)%nat.
Proof.
  induction 1 as [x l|x y l _ IH]; rewrite occurrences_cons.
  - rewrite decide_True by done. lia.
  - lia.
Qed.

(** C7 (as stated, refuted).  With the bound [starts_after=0] passed, the
    clone still holds the record that starts at 0 ms, which does not start
    after the bound. *)
Lemma slice_supplied_bounds_counterexample :
  ¬ (∀ time_bool h self sb sa eb ea,
       data (slice time_bool h self sb sa eb ea)
       = filter (in_window_supplied h sb sa eb ea) (data self)).
Proof.
  intros Hclaim.
  specialize (Hclaim (λ _, true) one_record_heap one_record_file
                None (Some (Millis 0)) None None).
  vm_compute in Hclaim. discriminate Hclaim.
Qed.

(** C7 (amended).  The clone that [slice] returns holds, in their order,
    the references of the original collection whose records pass the bounds
    that are true (a bound that is false, such as 0, is skipped); the
    store is the same, so these are the original records and not copies.
    Hence after a shift through the clone a record of the store has been
    shifted once for every time the clone names it, at least once if the
    clone names it at all, and the original collection, which names the
    same record, shows the change; a record the clone does not name is
    as it was. *)
Theorem slice_shares_records (time_bool : SubRipTime → bool)
    (time_shift : SubRipTime → SubRipTime) (h : heap)
    (self : SubRipFile loc) (sb sa eb ea : option timearg) :
  let clone := slice time_bool h self sb sa eb ea in
  data clone = filter (in_window time_bool h sb sa eb ea) (data self) ∧
  (∀ item, item ∈ data clone → item ∈ data self) ∧
  (∀ item,
     shift time_shift h clone !! item
     = Nat.iter (occurrences item (data clone))
                (SubRipItem_shift time_shift) <$> h !! item) ∧
  (∀ item,
     item ∈ data clone → (1 ≤ occurrences item (data clone))%nat) ∧
  (∀ item,
     item ∉ data clone → shift time_shift h clone !! item = h !! item).
Proof.
  intros clone. split; [apply slice_data|]. split; [|split; [|split]].
  - intros item. unfold clone. rewrite slice_data, list_elem_of_filter.
    tauto.
  - intros item. apply alter_all_lookup.
  - intros item. apply occurrences_pos.
  - intros item Hnot. unfold shift. rewrite alter_all_lookup.
    rewrite occurrences_not_in by done. cbn. by destruct (h !! item).
Qed.

Lemma slice_shares_records_witness :
  let clone :=
    slice (λ _, true) one_record_heap one_record_file
      None None None (Some (Millis 500)) in
  (0%nat ∈ data clone → 0%nat ∈ data one_record_file) ∧
  shift (shift_by 2000) one_record_heap clone !! 0%nat
  = Some (new_SubRipItem (at_ms 2000) (at_ms 3000) ∅).
Proof.
  intros clone.
  pose proof (slice_shares_records (λ _, true) (shift_by 2000)
                one_record_heap one_record_file
                None None None (Some (Millis 500))) as H.
  cbn zeta in H. destruct H as (_ & Hin & Hshift & _ & _).
  split; [exact (Hin 0%nat)|].
  unfold clone. rewrite Hshift. vm_compute. reflexivity.
Defined.

(** C10.  A bound that is false is treated as a bound that is absent, for
    each of the four bounds; so [slice(starts_after=0)] returns every
    record of the collection, whether or not it starts after 0 ms. *)
Theorem slice_falsy_bound_is_absent (time_bool : SubRipTime → bool)
    (h : heap) (self : SubRipFile loc) (sb sa eb ea : option timearg) :
  (truthy time_bool sb = false →
   slice time_bool h self sb sa eb ea
   = slice time_bool h self None sa eb ea) ∧
  (truthy time_bool sa = false →
   slice time_bool h self sb sa eb ea
   = slice time_bool h self sb None eb ea) ∧
  (truthy time_bool eb = false →
   slice time_bool h self sb sa eb ea
   = slice time_bool h self sb sa None ea) ∧
  (truthy time_bool ea = false →
   slice time_bool h self sb sa eb ea
   = slice time_bool h self sb sa eb None) ∧
  truthy time_bool (Some (Millis 0)) = false ∧
  data (slice time_bool h self None (Some (Millis 0)) None None)
  = data self.
Proof.
  repeat split.
  - intros Hf. unfold slice. by rewrite (keep_if_falsy _ sb).
  - intros Hf. unfold slice. by rewrite (keep_if_falsy _ sa).
  - intros Hf. unfold slice. by rewrite (keep_if_falsy _ eb).
  - intros Hf. unfold slice. by rewrite (keep_if_falsy _ ea).
Qed.

Lemma slice_falsy_bound_is_absent_witness :
  truthy (λ _, true) (Some (Millis 0)) = false ∧
  data (slice (λ _, true) one_record_heap one_record_file
          None (Some (Millis 0)) None None) = [0%nat] ∧
  ¬ time_lt (coerce (Millis 0)) (start (one_record_heap !!! 0%nat)).
Proof.
  split; [reflexivity|]. split.
  - rewrite (proj1 (proj2 (slice_falsy_bound_is_absent (λ _, true)
               one_record_heap one_record_file
               None (Some (Millis 0)) None None)) eq_refl).
    reflexivity.
  - vm_compute. intros H. discriminate H.
Defined.

(** ** [clean_indexes] *)

Lemma key_lt_asym a b : key_lt a b → ¬ key_lt b a.
Proof. unfold key_lt. lia. Qed.

Lemma key_lt_trans a b c : key_lt a b → key_lt b c → key_lt a c.
Proof. unfold key_lt. lia. Qed.

(** The order the sort leaves: no record is followed by a smaller one. *)
Lemma item_lt_le h a b : item_lt h a b → item_le h a b.
Proof. unfold item_le, item_lt. apply key_lt_asym. Qed.

Lemma sort_insert_head h x l :
  Sorted (item_le h) l → ∀ y, item_le h y x → HdRel (item_le h) y l →
  HdRel (item_le h) y (sort_insert h x l).
Proof.
  intros _ y Hyx Hhd. destruct l as [|z l]; cbn.
  - by constructor.
  - case_decide; constructor; [by inv Hhd|done].
Qed.

Lemma sort_insert_Sorted h x l :
  Sorted (item_le h) l → Sorted (item_le h) (sort_insert h x l).
Proof.
  induction 1 as [|y l Hl IH Hhd]; cbn.
  - by repeat constructor.
  - case_decide as Hlt.
    + constructor; [done|].
      apply sort_insert_head; [done|by apply item_lt_le|done].
    + by repeat constructor.
Qed.

Lemma list_sort_Sorted h l : Sorted (item_le h) (list_sort h l).
Proof.
  induction l as [|x l IH]; cbn; [constructor|].
  by apply sort_insert_Sorted.
Qed.

Lemma sort_insert_Permutation h x l : sort_insert h x l ≡ₚ x :: l.
Proof.
  induction l as [|y l IH]; cbn; [done|].
  case_decide; [|done]. rewrite IH. apply Permutation_swap.
Qed.

Lemma list_sort_Permutation h l : list_sort h l ≡ₚ l.
Proof.
  induction l as [|x l IH]; cbn; [done|].
  by rewrite sort_insert_Permutation, IH.
Qed.

(** A sorted list is left as it is. *)
Lemma list_sort_sorted h l : Sorted (item_le h) l → list_sort h l = l.
Proof.
  induction 1 as [|x l Hl IH Hhd]; [done|].
  cbn [list_sort foldr]. fold (list_sort h l). rewrite IH.
  destruct Hhd as [|y l Hxy]; [done|]. cbn.
  by rewrite decide_False.
Qed.

(** The sort reads the store through the keys only. *)
Lemma sort_insert_ext h h' x l :
  (∀ item, cmpkey h' item = cmpkey h item) →
  sort_insert h' x l = sort_insert h x l.
Proof.
  intros Hkey. induction l as [|y l IH]; [done|]. cbn. rewrite IH.
  apply decide_ext. unfold item_lt. by rewrite !Hkey.
Qed.

Lemma list_sort_ext h h' l :
  (∀ item, cmpkey h' item = cmpkey h item) →
  list_sort h' l = list_sort h l.
Proof.
  intros Hkey. induction l as [|x l IH]; [done|].
  cbn [list_sort foldr]. fold (list_sort h l) (list_sort h' l).
  by rewrite IH, (sort_insert_ext h h').
Qed.

(** *** The index assignments *)

Lemma set_index_set_index n m item :
  set_index n (set_index m item) = set_index n item.
Proof. done. Qed.

(** The loop over [enumerate], started at position [n]. *)
Lemma assign_lookup (l : list loc) : ∀ (n : nat) (h : heap) (item : loc),
  foldl (λ h p, alter (set_index (Z.of_nat p.1 + 1)) p.2 h) h
        (imap (λ index item, ((n + index)%nat, item)) l) !! item
  = match last_position item l n with
    | Some p => set_index (Z.of_nat p + 1) <$> h !! item
    | None => h !! item
    end.
Proof.
  induction l as [|x l IH]; intros n h item; [done|].
  rewrite imap_cons. cbn [foldl fst snd last_position].
  rewrite (imap_ext _ (λ index item, ((S n + index)%nat, item)))
    by (intros; cbn; f_equal; lia).
  rewrite IH, Nat.add_0_r, lookup_alter.
  destruct (last_position item l (S n)) as [p|].
  - case_decide as Hx; [subst x|done]. rewrite <-option_fmap_compose.
    by apply option_fmap_ext.
  - case_decide as Hx; [subst x|]; done.
Qed.

Lemma assign_indexes_lookup h l item :
  assign_indexes h l !! item
  = match last_position item l 0 with
    | Some p => set_index (Z.of_nat p + 1) <$> h !! item
    | None => h !! item
    end.
Proof.
  unfold assign_indexes, enumerate.
  rewrite (imap_ext _ (λ index item, ((0 + index)%nat, item))) by done.
  apply assign_lookup.
Qed.

(** Assigning the indexes a second time, in the same order, changes
    nothing. *)
Lemma assign_indexes_twice h l :
  assign_indexes (assign_indexes h l) l = assign_indexes h l.
Proof.
  apply map_eq. intros item. rewrite !assign_indexes_lookup.
  destruct (last_position item l 0) as [p|]; [|done].
  rewrite <-option_fmap_compose. by apply option_fmap_ext.
Qed.

(** Assigning indexes moves no record in the order. *)
Lemma assign_indexes_cmpkey h l item :
  cmpkey (assign_indexes h l) item = cmpkey h item.
Proof.
  unfold cmpkey. rewrite !lookup_total_alt, assign_indexes_lookup.
  destruct (last_position item l 0) as [p|]; [|done].
  by destruct (h !! item).
Qed.

Lemma last_position_bounds item l : ∀ n p,
  last_position item l n = Some p → (n ≤ p < n + length l)%nat.
Proof.
  induction l as [|x l IH]; intros n p; [done|]. cbn.
  destruct (last_position item l (S n)) as [q|] eqn:Hq.
  - intros [= <-]. apply IH in Hq. lia.
  - case_decide; [|done]. intros [= <-]. lia.
Qed.

Lemma last_position_None item l : ∀ n,
  item ∉ l → last_position item l n = None.
Proof.
  induction l as [|x l IH]; intros n; [done|].
  rewrite not_elem_of_cons. intros [Hne Hl]. cbn.
  rewrite IH by done. by rewrite decide_False.
Qed.

(** In a collection without repetition the last occurrence of a record is
    its only one. *)
Lemma last_position_NoDup item l : ∀ n p,
  NoDup l → l !! p = Some item →
  last_position item l n = Some (n + p)%nat.
Proof.
  induction l as [|x l IH]; intros n p Hnd Hp; [done|].
  apply NoDup_cons in Hnd as [Hx Hnd]. destruct p as [|p]; cbn in *.
  - simplify_eq. rewrite last_position_None by done.
    rewrite decide_True by done. f_equal. lia.
  - rewrite (IH (S n) p) by done. f_equal. lia.
Qed.

Lemma indexes_NoDup h l :
  allocated h l → NoDup l →
  (λ item, index (assign_indexes h l !!! item)) <$> l
  = (λ p : nat, Z.of_nat p + 1) <$> seq 0 (length l).
Proof.
  intros Halloc Hnd. apply list_eq. intros p.
  rewrite !list_lookup_fmap.
  destruct (l !! p) as [item|] eqn:Hp.
  - rewrite lookup_seq_lt by (by eapply lookup_lt_Some). cbn. f_equal.
    rewrite lookup_total_alt, assign_indexes_lookup.
    rewrite (last_position_NoDup item l 0 p) by done. cbn.
    destruct (Halloc item) as [r ->]; [by eapply list_elem_of_lookup_2|].
    done.
  - rewrite lookup_seq_ge by (by apply lookup_ge_None). done.
Qed.

(** C8 (as stated, refuted).  A collection that holds the same record
    twice reads the indexes 2, 2 after [clean_indexes], not 1, 2: the second
    assignment overwrites the first. *)
Lemma clean_indexes_contiguous_counterexample :
  ¬ (∀ h self,
       allocated h (data self) →
       indexes (clean_indexes h self).1 (clean_indexes h self).2
       = (λ p : nat, Z.of_nat p + 1) <$> seq 0 (length (data self))).
Proof.
  intros Hclaim.
  specialize (Hclaim one_record_heap twice_file).
  assert (allocated one_record_heap (data twice_file)) as Halloc.
  { intros item Hin. cbn in Hin.
    apply elem_of_cons in Hin as [->|Hin]; [by eexists|].
    apply list_elem_of_singleton in Hin as ->. by eexists. }
  specialize (Hclaim Halloc). vm_compute in Hclaim. discriminate Hclaim.
Qed.

(** C8 (amended).  [clean_indexes] applied twice leaves the store and the
    collection as one application leaves them.  After one application the
    collection holds the same references, sorted ascending by (start, end);
    a second application changes neither the order nor the indexes; each
    record carries as its index the 1-based position of its last occurrence
    in the new order, so a collection of [N] records in which no record
    occurs twice reads the indexes 1..N. *)
Theorem clean_indexes_idempotent (h : heap) (self : SubRipFile loc) :
  let h1 := (clean_indexes h self).1 in
  let s1 := (clean_indexes h self).2 in
  clean_indexes h1 s1 = (h1, s1) ∧
  Sorted (item_le h1) (data s1) ∧
  data s1 ≡ₚ data self ∧
  indexes (clean_indexes h1 s1).1 (clean_indexes h1 s1).2 = indexes h1 s1 ∧
  (∀ item,
     h1 !! item
     = match last_position item (data s1) 0 with
       | Some p => set_index (Z.of_nat p + 1) <$> h !! item
       | None => h !! item
       end) ∧
  (allocated h (data self) → NoDup (data self) →
   indexes h1 s1
   = (λ p : nat, Z.of_nat p + 1) <$> seq 0 (length (data self))).
Proof.
  intros h1 s1.
  assert (∀ item, cmpkey h1 item = cmpkey h item) as Hkey
    by (intros item; apply assign_indexes_cmpkey).
  assert (Sorted (item_le h) (data s1)) as Hsorted
    by apply list_sort_Sorted.
  assert (clean_indexes h1 s1 = (h1, s1)) as Hidem.
  { unfold clean_indexes at 1. cbn [data set_data s1 clean_indexes snd].
    rewrite (list_sort_ext h h1) by done.
    rewrite list_sort_sorted by done.
    unfold h1, clean_indexes. cbn [fst].
    rewrite assign_indexes_twice. done. }
  split; [exact Hidem|]. split; [|split; [|split; [|split]]].
  - eapply Sorted_ind
      with (P := λ l, Sorted (item_le h1) l); [constructor| |exact Hsorted].
    intros x l _ IH Hhd. constructor; [done|].
    destruct Hhd as [|y l Hxy]; constructor.
    unfold item_le, item_lt in *. by rewrite !Hkey.
  - apply list_sort_Permutation.
  - by rewrite Hidem.
  - intros item. apply assign_indexes_lookup.
  - intros Halloc Hnd. unfold indexes, s1, h1, clean_indexes.
    cbn [fst snd data set_data].
    assert (data self ≡ₚ list_sort h (data self)) as Hperm
      by (symmetry; apply list_sort_Permutation).
    rewrite indexes_NoDup.
    + by rewrite <-Hperm.
    + intros item Hin. apply Halloc. by rewrite Hperm.
    + by rewrite <-Hperm.
Qed.

Lemma clean_indexes_idempotent_witness :
  allocated one_record_heap (data one_record_file) ∧
  NoDup (data one_record_file) ∧
  indexes (clean_indexes one_record_heap one_record_file).1
          (clean_indexes one_record_heap one_record_file).2
  = [1].
Proof.
  assert (allocated one_record_heap (data one_record_file)) as Halloc.
  { intros item Hin. cbn in Hin.
    apply list_elem_of_singleton in Hin as ->. by eexists. }
  assert (NoDup (data one_record_file)) as Hnd
    by (cbn; apply NoDup_singleton).
  split; [exact Halloc|]. split; [exact Hnd|].
  pose proof (clean_indexes_idempotent one_record_heap one_record_file) as H.
  cbn zeta in H. destruct H as (_ & _ & _ & _ & _ & Hidx).
  exact (Hidx Halloc Hnd).
Defined.

(** * Further properties *)

(** ** [merge_dict] as an operation on maps *)

Lemma merge_dict_eq d1 d2 (m : gmap string string) :
  (∀ key, m !! key = merged_at d1 d2 key) → merge_dict d1 d2 = Done m.
Proof.
  intros Hm. destruct (merge_dict_lookup d1 d2) as (ret & -> & Hret).
  f_equal. apply map_eq. intros key. by rewrite Hret, Hm.
Qed.

Lemma merged_at_assoc d1 d2 d3 (m12 m23 : gmap string string) key :
  (∀ k, m12 !! k = merged_at d1 d2 k) →
  (∀ k, m23 !! k = merged_at d2 d3 k) →
  merged_at m12 d3 key = merged_at d1 m23 key.
Proof.
  intros H12 H23. unfold merged_at. rewrite H12, H23.
  unfold merged_at.
  destruct (d1 !! key), (d2 !! key), (d3 !! key); try done.
  by rewrite append_assoc.
Qed.

(** X1.  [merge_dict] has the empty map as a neutral element on both sides
    and is associative: merging [d1] with [d2] and the result with [d3]
    gives the map that merging [d1] with the merge of [d2] and [d3] gives.
    So the way [reduce] groups a bag of maps does not show in the
    result. *)
Theorem merge_dict_monoid (d1 d2 d3 : gmap string string) :
  merge_dict d1 ∅ = Done d1 ∧
  merge_dict ∅ d1 = Done d1 ∧
  (m12 ← merge_dict d1 d2; merge_dict m12 d3)
  = (m23 ← merge_dict d2 d3; merge_dict d1 m23).
Proof.
  split; [|split].
  - apply merge_dict_eq. intros key. unfold merged_at.
    rewrite lookup_empty. by destruct (d1 !! key).
  - apply merge_dict_eq. intros key. unfold merged_at.
    rewrite lookup_empty. by destruct (d1 !! key).
  - destruct (merge_dict_lookup d1 d2) as (m12 & -> & H12).
    destruct (merge_dict_lookup d2 d3) as (m23 & -> & H23).
    cbn [mbind outcome_bind].
    destruct (merge_dict_lookup d1 m23) as (m & -> & Hm).
    apply merge_dict_eq. intros key.
    by rewrite Hm, (merged_at_assoc d1 d2 d3 m12 m23).
Qed.

(** X2.  When the two maps share no key, the order of the arguments of
    [merge_dict] does not matter, and the result is the union of the two
    maps. *)
Theorem merge_dict_disjoint_comm (d1 d2 : gmap string string) :
  dom d1 ## dom d2 →
  merge_dict d1 d2 = merge_dict d2 d1 ∧ merge_dict d1 d2 = Done (d1 ∪ d2).
Proof.
  intros Hdisj.
  assert (∀ key, d1 !! key = None ∨ d2 !! key = None) as Hone.
  { intros key. destruct (d1 !! key) as [v1|] eqn:E1; [|by left].
    destruct (d2 !! key) as [v2|] eqn:E2; [|by right].
    exfalso. apply (Hdisj key); apply elem_of_dom; by eexists. }
  assert (merge_dict d1 d2 = Done (d1 ∪ d2)) as H12.
  { apply merge_dict_eq. intros key. rewrite lookup_union. unfold merged_at.
    destruct (Hone key) as [E|E]; rewrite E;
      [by destruct (d2 !! key)|by destruct (d1 !! key)]. }
  split; [|exact H12]. rewrite H12. symmetry.
  apply merge_dict_eq. intros key. rewrite lookup_union. unfold merged_at.
  destruct (Hone key) as [E|E]; rewrite E;
    [by destruct (d2 !! key)|by destruct (d1 !! key)].
Qed.

Lemma merge_dict_disjoint_comm_witness :
  merge_dict {["en" := "hi"]} {["fr" := "salut"]}
  = merge_dict {["fr" := "salut"]} {["en" := "hi"]}.
Proof.
  apply (merge_dict_disjoint_comm {["en" := "hi"]} {["fr" := "salut"]}).
  rewrite !dom_singleton_L. intros key H1 H2.
  apply elem_of_singleton in H1, H2. by subst.
Defined.

(** ** What [match] emits *)

Lemma merge_dict_dom d1 d2 :
  ∃ ret, merge_dict d1 d2 = Done ret ∧ dom ret = dom d1 ∪ dom d2.
Proof.
  destruct (merge_dict_lookup d1 d2) as (ret & Hm & Hl).
  exists ret. split; [exact Hm|]. apply set_eq. intros key.
  rewrite elem_of_dom, Hl, <-not_eq_None_Some, merged_at_None.
  destruct (decide (key ∈ dom d1 ∪ dom d2)); naive_solver.
Qed.

Lemma reduce_merge_dict_dom (x : gmap string string) xs :
  ∃ ret, reduce merge_dict (x :: xs) = Done ret ∧
         dom ret = dom x ∪ ⋃ (dom <$> xs).
Proof.
  cbn [reduce]. revert x. induction xs as [|y xs IH]; intros x.
  - exists x. split; [done|]. cbn. by rewrite (right_id_L ∅ (∪)).
  - cbn [foldl]. cbn [mbind outcome_bind].
    destruct (merge_dict_dom x y) as (r & -> & Hr).
    destruct (IH r) as (ret & -> & Hret).
    exists ret. split; [done|]. rewrite Hret, Hr. cbn.
    by rewrite (assoc_L (∪)).
Qed.

Lemma tags_elem x (l : list SubRipItem) :
  x ∈ l → dom (lang_map x) ⊆ tags l.
Proof.
  intros Hx key Hkey. unfold tags. apply elem_of_union_list.
  exists (dom (lang_map x)). split; [|done].
  apply list_elem_of_fmap. by exists x.
Qed.

Lemma tags_sub (l1 l2 : list SubRipItem) : l1 ⊆ l2 → tags l1 ⊆ tags l2.
Proof.
  intros Hsub key. unfold tags. rewrite !elem_of_union_list.
  intros (X & HX & Hkey). apply list_elem_of_fmap in HX as (x & -> & Hx).
  exists (dom (lang_map x)). split; [|done].
  apply list_elem_of_fmap. exists x. split; [done|]. by apply Hsub.
Qed.

Lemma bag_tags (bag xs : list SubRipItem) :
  bag ≠ [] → bag ⊆ xs →
  ∃ l_map, reduce merge_dict (lang_map <$> bag) = Done l_map ∧
           dom l_map ⊆ tags xs.
Proof.
  intros Hne Hsub. destruct bag as [|x bag]; [done|].
  cbn [fmap list_fmap].
  change (list_fmap _ _ lang_map bag) with (lang_map <$> bag).
  destruct (reduce_merge_dict_dom (lang_map x) (lang_map <$> bag))
    as (l_map & -> & Hdom).
  exists l_map. split; [done|]. rewrite Hdom.
  transitivity (tags (x :: bag)); [|by apply tags_sub].
  unfold tags. cbn. by rewrite <-list_fmap_compose.
Qed.

Lemma run_subseteq {A} (l : list A) k n : take n (drop k l) ⊆ l.
Proof.
  intros x Hx. apply (subseteq_drop k l). by apply (subseteq_take n).
Qed.

(** A pass through branch 1.2. *)
Lemma group_other_shape self other st :
  (st_i st < length self)%nat → (st_j st < length other)%nat →
  ∃ st', group_other self other st = Done st' ∧
         st_i st' = (st_i st + 1)%nat ∧
         (st_j st + 1 ≤ st_j st' ≤ length other)%nat ∧
         (st_ret st' = st_ret st ∨
          ∃ si l_map,
            self !! st_i st = Some si ∧
            st_ret st' = st_ret st
                         ++ [new_SubRipItem (start si) (end_ si) l_map] ∧
            dom l_map ⊆ tags other).
Proof.
  intros Hi Hj. unfold group_other.
  destruct (getitem_lt self _ Hi) as (si & Hsi & ->).
  cbn [mbind outcome_bind].
  destruct (next_ends_far_Done other (st_j st) (ordinal (end_ si)))
    as [far ->]. cbn [mbind outcome_bind].
  destruct far.
  { eexists. split; [done|]. cbn. split; [done|]. split; [lia|]. by left. }
  destruct (gather_from_Done other (st_j st) (ordinal (end_ si)) Hj)
    as (j' & bag & -> & Hbag & Hj' & Hlen & _). cbn [mbind outcome_bind].
  destruct (getitem_lt other j') as (oj' & _ & ->); [lia|].
  cbn [mbind outcome_bind].
  destruct (bag_tags bag other) as (l_map & Hl & Hdom).
  { intros ->. cbn in Hlen. lia. }
  { rewrite Hbag. apply run_subseteq. }
  rewrite Hl. cbn [mbind outcome_bind].
  case_bool_decide; cbn [mbind outcome_bind].
  - eexists. split; [done|]. cbn. split; [done|]. split; [lia|].
    right. by exists si, l_map.
  - eexists. split; [done|]. cbn. split; [done|]. split; [lia|]. by left.
Qed.

(** A pass through branch 1.3. *)
Lemma group_self_shape self other st :
  (st_i st < length self)%nat → (st_j st < length other)%nat →
  ∃ st', group_self self other st = Done st' ∧
         (st_i st + 1 ≤ st_i st' ≤ length self)%nat ∧
         st_j st' = (st_j st + 1)%nat ∧
         (st_ret st' = st_ret st ∨
          ∃ k sk l_map,
            (st_i st ≤ k < st_i st')%nat ∧ self !! k = Some sk ∧
            st_ret st' = st_ret st
                         ++ [new_SubRipItem (start sk) (end_ sk) l_map] ∧
            dom l_map ⊆ tags self).
Proof.
  intros Hi Hj. unfold group_self.
  destruct (getitem_lt other _ Hj) as (oj & Hoj & ->).
  cbn [mbind outcome_bind].
  destruct (next_ends_far_Done self (st_i st) (ordinal (end_ oj)))
    as [far ->]. cbn [mbind outcome_bind].
  destruct far.
  { eexists. split; [done|]. cbn. split; [lia|]. split; [done|]. by left. }
  destruct (gather_from_Done self (st_i st) (ordinal (end_ oj)) Hi)
    as (i' & bag & -> & Hbag & Hi' & Hlen & _). cbn [mbind outcome_bind].
  destruct (getitem_lt self i') as (si' & Hsi' & ->); [lia|].
  cbn [mbind outcome_bind].
  destruct (bag_tags bag self) as (l_map & Hl & Hdom).
  { intros ->. cbn in Hlen. lia. }
  { rewrite Hbag. apply run_subseteq. }
  rewrite Hl. cbn [mbind outcome_bind].
  case_bool_decide; cbn [mbind outcome_bind].
  - eexists. split; [done|]. cbn. split; [lia|]. split; [done|].
    right. exists i', si', l_map. split; [lia|]. done.
  - eexists. split; [done|]. cbn. split; [lia|]. split; [done|]. by left.
Qed.

(** Any pass: the pointers stay within the collections, and a record, if
    one is emitted, spans a record of [self] that the pass moves [i] over,
    while [j] moves too. *)
Lemma match_iter_shape self other st :
  running self other st = true →
  ∃ st', match_iter self other st = Done st' ∧
         (st_i st ≤ st_i st' ≤ length self)%nat ∧
         (st_j st ≤ st_j st' ≤ length other)%nat ∧
         (st_ret st' = st_ret st ∨
          ∃ k sk l_map,
            (st_i st ≤ k < st_i st')%nat ∧ (st_j st < st_j st')%nat ∧
            self !! k = Some sk ∧
            st_ret st' = st_ret st
                         ++ [new_SubRipItem (start sk) (end_ sk) l_map] ∧
            dom l_map ⊆ tags self ∪ tags other).
Proof.
  rewrite running_true. intros [Hi Hj]. unfold match_iter.
  destruct (getitem_lt self _ Hi) as (si & Hsi & ->).
  destruct (getitem_lt other _ Hj) as (oj & Hoj & ->).
  cbn [mbind outcome_bind].
  repeat case_bool_decide.
  - destruct (reduce_merge_dict_dom (lang_map si) [lang_map oj])
      as (l_map & -> & Hdom).
    cbn [mbind outcome_bind]. eexists. split; [done|]. cbn.
    split; [lia|]. split; [lia|]. right.
    exists (st_i st), si, l_map. split; [lia|]. split; [lia|].
    split; [done|]. split; [done|]. rewrite Hdom. cbn.
    rewrite (right_id_L ∅ (∪)).
    apply union_mono; apply tags_elem; by eapply list_elem_of_lookup_2.
  - destruct (group_other_shape self other st Hi Hj)
      as (st' & -> & Hi' & Hj' & Hret).
    exists st'. split; [done|]. split; [lia|]. split; [lia|].
    destruct Hret as [Hret|(sk & l_map & Hsk & Hret & Hdom)]; [by left|].
    right. exists (st_i st), sk, l_map. split; [lia|]. split; [lia|].
    split; [done|]. split; [done|].
    etransitivity; [exact Hdom|]. apply union_subseteq_r.
  - destruct (group_self_shape self other st Hi Hj)
      as (st' & -> & Hi' & Hj' & Hret).
    exists st'. split; [done|]. split; [lia|]. split; [lia|].
    destruct Hret as [Hret|(k & sk & l_map & Hk & Hsk & Hret & Hdom)];
      [by left|].
    right. exists k, sk, l_map. split; [lia|]. split; [lia|].
    split; [done|]. split; [done|].
    etransitivity; [exact Hdom|]. apply union_subseteq_l.
  - lia.
  - eexists. split; [done|]. cbn. split; [lia|]. split; [lia|]. by left.
  - eexists. split; [done|]. cbn. split; [lia|]. split; [lia|]. by left.
Qed.

Lemma singleton_sublist {A} (x : A) l : x ∈ l → [x] `sublist_of` l.
Proof.
  intros Hx. apply list_elem_of_split in Hx as (l1 & l2 & ->).
  apply sublist_inserts_l. apply sublist_skip, sublist_nil_l.
Qed.

Lemma take_split {A} (l : list A) i i' :
  (i ≤ i')%nat → take i' l = take i l ++ take (i' - i) (drop i l).
Proof.
  intros Hle. rewrite take_take_drop. f_equal. lia.
Qed.

Lemma match_iter_inv self other st :
  match_inv self other st → running self other st = true →
  ∃ st', match_iter self other st = Done st' ∧
         match_inv self other st' ∧
         (st_i st + st_j st < st_i st' + st_j st')%nat.
Proof.
  intros (Hin & Hjm & Hli & Hlj & Hsub & Htags) Hrun.
  destruct (match_iter_progress self other st Hrun)
    as (st0 & Hst0 & _ & _ & Hlt).
  destruct (match_iter_shape self other st Hrun)
    as (st' & Hst' & Hi & Hj & Hret).
  rewrite Hst0 in Hst'. injection Hst' as ->.
  exists st'. split; [done|]. split; [|done].
  unfold match_inv. split; [lia|]. split; [lia|].
  destruct Hret as [Hret|(k & sk & l_map & Hk & Hjlt & Hsk & Hret & Hdom)].
  - rewrite Hret. split; [lia|]. split; [lia|]. split; [|done].
    rewrite (take_split self (st_i st) (st_i st')) by lia.
    rewrite fmap_app. by apply sublist_inserts_r.
  - rewrite Hret, length_app. cbn [length]. split; [lia|]. split; [lia|].
    split.
    + rewrite (take_split self (st_i st) (st_i st')) by lia.
      rewrite !fmap_app. apply sublist_app; [done|].
      cbn [fmap list_fmap]. apply singleton_sublist.
      apply list_elem_of_fmap. exists sk. split; [done|].
      apply list_elem_of_lookup. exists (k - st_i st)%nat.
      rewrite lookup_take_lt by lia. rewrite lookup_drop.
      rewrite <-Hsk. f_equal. lia.
    + apply Forall_app. split; [done|]. by repeat constructor.
Qed.

Lemma match_loop_inv self other fuel : ∀ st,
  match_inv self other st →
  (length self - st_i st + (length other - st_j st) ≤ fuel)%nat →
  ∃ st', match_loop fuel self other st = Done st' ∧
         match_inv self other st'.
Proof.
  induction fuel as [|fuel IH]; intros st Hinv Hfuel.
  - cbn. destruct (running self other st) eqn:Hrun; [|eauto].
    apply running_true in Hrun. lia.
  - cbn. destruct (running self other st) eqn:Hrun; [|eauto].
    destruct (match_iter_inv self other st Hinv Hrun)
      as (st' & -> & Hinv' & Hlt).
    cbn [mbind outcome_bind]. apply IH; [done|].
    apply running_true in Hrun.
    destruct Hinv' as (? & ? & _). lia.
Qed.

Lemma match_inv_init self other : match_inv self other match_init.
Proof.
  unfold match_inv, match_init. cbn. repeat split; try lia.
  - apply sublist_nil_l.
  - constructor.
Qed.

Lemma match_result self other :
  ∃ st, SubRipFile_match self other
        = Done (with_lang_stat (new_SubRipFile (st_ret st))) ∧
        match_inv self other st.
Proof.
  destruct (match_loop_inv self other (length self + length other)
              match_init (match_inv_init self other)) as (st & Hst & Hinv).
  { cbn. lia. }
  exists st. split; [|done]. unfold SubRipFile_match. by rewrite Hst.
Qed.

(** X3.  [match] emits at most as many records as the shorter of the two
    collections holds. *)
Theorem match_length_bound (self other : list SubRipItem) :
  ∃ ret, SubRipFile_match self other = Done ret ∧
         (length (data ret) ≤ length self `min` length other)%nat.
Proof.
  destruct (match_result self other)
    as (st & Hm & Hin & Hjm & Hli & Hlj & _).
  eexists. split; [exact Hm|]. cbn [data with_lang_stat new_SubRipFile]. lia.
Qed.

(** X4.  The time spans (start, end) of the records [match] emits are, in
    order, a subsequence of the time spans of [self]: every merged record
    takes its span from a record of [self], no record of [self] gives its
    span twice, and the order of [self] is kept. *)
Theorem match_spans_of_self (self other : list SubRipItem) :
  ∃ ret, SubRipFile_match self other = Done ret ∧
         span <$> data ret `sublist_of` span <$> self.
Proof.
  destruct (match_result self other)
    as (st & Hm & _ & _ & _ & _ & Hsub & _).
  eexists. split; [exact Hm|]. cbn [data with_lang_stat new_SubRipFile].
  etransitivity; [exact Hsub|]. apply fmap_sublist, sublist_take.
Qed.

(** X5.  [match] invents no language tag: every tag of a merged record is
    a tag of a record of [self] or of [other], and so is every tag in the
    [langs] of the result. *)
Theorem match_tags_of_inputs (self other : list SubRipItem) :
  ∃ ret, SubRipFile_match self other = Done ret ∧
         tags (data ret) ⊆ tags self ∪ tags other ∧
         ∀ key, key ∈ langs ret → key ∈ tags self ∪ tags other.
Proof.
  destruct (match_result self other)
    as (st & Hm & _ & _ & _ & _ & _ & Htags).
  eexists. split; [exact Hm|].
  assert (tags (st_ret st) ⊆ tags self ∪ tags other) as Hsub.
  { intros key. unfold tags at 1. rewrite elem_of_union_list.
    intros (X & HX & Hkey).
    apply list_elem_of_fmap in HX as (r & -> & Hr).
    rewrite Forall_forall in Htags. by apply (Htags r Hr). }
  split; [exact Hsub|]. intros key Hkey. apply Hsub.
  apply with_lang_stat_langs in Hkey. cbn [data new_SubRipFile] in Hkey.
  destruct (records_with key (st_ret st)) as [|r rs] eqn:Hrs;
    [cbn in Hkey; lia|].
  assert (r ∈ records_with key (st_ret st)) as Hr by (rewrite Hrs; by left).
  unfold records_with in Hr. apply list_elem_of_filter in Hr as [Hhas Hr].
  apply (tags_elem r (st_ret st) Hr). by apply elem_of_dom.
Qed.

Lemma match_tags_of_inputs_witness :
  ∃ ret, SubRipFile_match scenario_self scenario_other = Done ret ∧
         "fr" ∈ tags scenario_self ∪ tags scenario_other.
Proof.
  destruct (match_tags_of_inputs scenario_self scenario_other)
    as (ret & Hmatch & _ & Hlangs).
  exists ret. split; [exact Hmatch|]. apply Hlangs.
  vm_compute in Hmatch. injection Hmatch as <-. vm_compute. constructor.
Defined.

(** ** [stream] under the three policies *)

Lemma handle_error_returns error eh index log :
  eh ≠ Some ERROR_RAISE →
  ∃ log', _handle_error error eh index log = Returned log' ∧
          (eh ≠ Some ERROR_LOG → log' = log).
Proof.
  intros Hne. unfold _handle_error.
  rewrite bool_decide_eq_false_2 by done.
  case_bool_decide; eexists; (split; [done|]); [done|done].
Qed.

Lemma handle_error_raise error index log :
  _handle_error error (Some ERROR_RAISE) index log
  = Reraised {| exc_name := exc_name error;
                args := PyInt (Z.of_nat index) :: args error |}.
Proof. done. Qed.

(** Only [ERROR_RAISE] can stop the generator. *)
Lemma stream_loop_exhausts from_lines eh lines : ∀ index st,
  eh ≠ Some ERROR_RAISE →
  ∃ st', stream_loop from_lines eh index lines st = Exhausted st'.
Proof.
  induction lines as [|line lines IH]; intros index st Hne; [by eexists|].
  cbn [stream_loop].
  destruct (str_bool (strip line)); [by apply IH|].
  destruct (negb (bool_decide (string_buffer st = []))
            && forallb str_bool (string_buffer st)); [|by apply IH].
  destruct (from_lines (string_buffer st)) as [item|error]; [by apply IH|].
  destruct (handle_error_returns
              {| exc_name := exc_name error;
                 args := args error
                         ++ [PyStr (join_empty (string_buffer st))] |}
              eh index (stderr st) Hne) as (log' & -> & _).
  by apply IH.
Qed.

(** Without [ERROR_LOG] nothing goes to [sys.stderr]. *)
Lemma stream_loop_quiet from_lines eh lines : ∀ index st,
  eh ≠ Some ERROR_LOG →
  match stream_loop from_lines eh index lines st with
  | Exhausted st' => stderr st' = stderr st
  | Aborted _ log _ => log = stderr st
  end.
Proof.
  induction lines as [|line lines IH]; intros index st Hne; [done|].
  cbn [stream_loop].
  destruct (str_bool (strip line)); [exact (IH (S index) _ Hne)|].
  destruct (negb (bool_decide (string_buffer st = []))
            && forallb str_bool (string_buffer st));
    [|exact (IH (S index) _ Hne)].
  destruct (from_lines (string_buffer st)) as [item|error];
    [exact (IH (S index) _ Hne)|].
  unfold _handle_error. case_bool_decide; [done|].
  rewrite bool_decide_eq_false_2 by done. exact (IH (S index) _ Hne).
Qed.

(** What has been yielded stays yielded. *)
Lemma stream_loop_grows from_lines eh lines : ∀ index st,
  match stream_loop from_lines eh index lines st with
  | Exhausted st' => yielded st `prefix_of` yielded st'
  | Aborted items _ _ => yielded st `prefix_of` items
  end.
Proof.
  induction lines as [|line lines IH]; intros index st; [by cbn|].
  cbn [stream_loop].
  destruct (str_bool (strip line)); [exact (IH (S index) _)|].
  destruct (negb (bool_decide (string_buffer st = []))
            && forallb str_bool (string_buffer st));
    [|exact (IH (S index) _)].
  destruct (from_lines (string_buffer st)) as [item|error].
  - specialize (IH (S index)
                  {| string_buffer := []; yielded := yielded st ++ [item];
                     stderr := stderr st |}).
    cbn [yielded] in IH.
    destruct (stream_loop _ _ _ _ _); (etransitivity; [|exact IH]);
      by apply prefix_app_r.
  - destruct (_handle_error _ eh index (stderr st)); [done|].
    exact (IH (S index) _).
Qed.

(** Two runs over the same lines, the first under a policy that does not
    raise: as long as the second goes on it is in step with the first, and
    when it stops it has yielded a prefix of what the first yields. *)
Lemma stream_loop_policies from_lines eh1 eh2 lines : ∀ index st1 st2,
  eh1 ≠ Some ERROR_RAISE →
  string_buffer st1 = string_buffer st2 → yielded st1 = yielded st2 →
  ∃ st1', stream_loop from_lines eh1 index lines st1 = Exhausted st1' ∧
    match stream_loop from_lines eh2 index lines st2 with
    | Exhausted st2' =>
        yielded st2' = yielded st1' ∧
        string_buffer st2' = string_buffer st1'
    | Aborted items _ _ => items `prefix_of` yielded st1'
    end.
Proof.
  induction lines as [|line lines IH]; intros index st1 st2 Hne Hbuf Hy.
  { eexists. split; [done|]. cbn. by rewrite Hbuf, Hy. }
  cbn [stream_loop]. rewrite <-Hbuf.
  destruct (str_bool (strip line)).
  { apply IH; [done| |done]. cbn. by rewrite Hbuf. }
  destruct (negb (bool_decide (string_buffer st1 = []))
            && forallb str_bool (string_buffer st1)).
  2: { by apply IH. }
  destruct (from_lines (string_buffer st1)) as [item|error].
  { apply IH; [done|done|]. cbn. by rewrite Hy. }
  destruct (handle_error_returns
              {| exc_name := exc_name error;
                 args := args error
                         ++ [PyStr (join_empty (string_buffer st1))] |}
              eh1 index (stderr st1) Hne) as (log1 & -> & _).
  destruct (_handle_error _ eh2 index (stderr st2)) as [e|log2].
  - destruct (stream_loop_exhausts from_lines eh1 lines (S index)
                {| string_buffer := []; yielded := yielded st1;
                   stderr := log1 |} Hne) as (st1' & Hst1).
    exists st1'. split; [done|]. rewrite <-Hy.
    pose proof (stream_loop_grows from_lines eh1 lines (S index)
                  {| string_buffer := []; yielded := yielded st1;
                     stderr := log1 |}) as Hgrow.
    by rewrite Hst1 in Hgrow.
  - by apply IH.
Qed.




(** Between two blank lines the buffer holds lines that are not blank. *)
Lemma stream_loop_ext (f g : list string → SubRipItem + Error) eh lines :
  (∀ block, block ≠ [] →
            Forall (λ line, str_bool (strip line) = true) block →
            f block = g block) →
  ∀ index st,
    Forall (λ line, str_bool (strip line) = true) (string_buffer st) →
    stream_loop f eh index lines st = stream_loop g eh index lines st.
Proof.
  intros Hfg. induction lines as [|line lines IH]; intros index st Hbuf;
    [done|].
  cbn [stream_loop].
  destruct (str_bool (strip line)) eqn:Hline.
  { apply IH. cbn. apply Forall_app. split; [done|]. by constructor. }
  destruct (bool_decide (string_buffer st = [])) eqn:Hempty.
  { cbn [negb andb]. apply IH. by constructor. }
  apply bool_decide_eq_false in Hempty.
  rewrite (Hfg (string_buffer st)) by done.
  cbn [negb andb]. destruct (forallb str_bool (string_buffer st)).
  - destruct (g (string_buffer st)); [apply IH; by constructor|].
    destruct (_handle_error _ _ _ _); [done|]. apply IH. by constructor.
  - apply IH. by constructor.
Qed.

(** X8.  [stream] consults the parser only on blocks that are not empty
    and whose lines are not blank: two parsers that agree on such blocks
    give the same run, whatever they do elsewhere. *)
Theorem stream_parser_called_on_blocks
    (f g : list string → SubRipItem + Error)
    (source_file : list string) (error_handling : option Z) :
  (∀ block, block ≠ [] →
            Forall (λ line, str_bool (strip line) = true) block →
            f block = g block) →
  stream f source_file error_handling = stream g source_file error_handling.
Proof.
  intros Hfg. unfold stream. apply stream_loop_ext; [done|]. constructor.
Qed.

Lemma stream_parser_called_on_blocks_witness :
  stream sample_from_lines sample_lines (Some ERROR_LOG)
  = stream (λ block,
              match block with
              | [] => inl (new_SubRipItem (at_ms 0) (at_ms 0) ∅)
              | _ => sample_from_lines block
              end)
           sample_lines (Some ERROR_LOG).
Proof.
  apply stream_parser_called_on_blocks.
  intros block Hne _. by destruct block.
Defined.

(** ** The [eol] property and [_guess_eol] *)

Lemma append_last_inj s t a b :
  s +:+ String a EmptyString = t +:+ String b EmptyString → s = t ∧ a = b.
Proof.
  revert t. induction s as [|c s IH]; intros [|d t] Heq.
  - by injection Heq as ->.
  - rewrite append_String in Heq. injection Heq as -> Heq.
    destruct t; discriminate Heq.
  - rewrite append_String in Heq. injection Heq as -> Heq.
    destruct s; discriminate Heq.
  - rewrite !append_String in Heq. injection Heq as -> Heq.
    destruct (IH t Heq) as [-> ->]. done.
Qed.

Lemma append_CRLF front : front +:+ CRLF = (front +:+ CR_str) +:+ nl.
Proof. by rewrite append_assoc. Qed.

Lemma endswith_false s suffix :
  endswith s suffix = false ↔ ¬ ∃ front, s = front +:+ suffix.
Proof.
  rewrite <-endswith_true. by destruct (endswith s suffix).
Qed.

(** X9.  [_guess_eol] looks at the first line only.  A first line that ends
    with ['\r\n'] gives ['\r\n'], not ['\n']; one that ends with ['\r']
    gives ['\r']; one that ends with ['\n'] not preceded by ['\r'] gives
    ['\n'].  In every case the answer is [os.linesep] or one of the three
    terminators, and then the first line ends with it; a source without
    lines gives [os.linesep]. *)
Theorem guess_eol_first_line (linesep : string)
    (string_iterable : list string) :
  let first_line := _get_first_line string_iterable in
  let eol := _guess_eol linesep string_iterable in
  (∀ front, first_line = front +:+ CRLF → eol = CRLF) ∧
  (∀ front, first_line = front +:+ CR_str → eol = CR_str) ∧
  (∀ front, first_line = front +:+ nl →
            (∀ front', front ≠ front' +:+ CR_str) → eol = nl) ∧
  (eol = linesep ∨
   (eol ∈ [CRLF; CR_str; nl] ∧ ∃ front, first_line = front +:+ eol)) ∧
  _guess_eol linesep [] = linesep.
Proof.
  intros first_line eol. unfold eol, _guess_eol. fold first_line.
  cbn [find]. repeat split.
  - intros front Hf.
    rewrite (proj2 (endswith_true first_line CRLF)) by eauto. done.
  - intros front Hf.
    rewrite (proj2 (endswith_false first_line CRLF)).
    + rewrite (proj2 (endswith_true first_line CR_str)) by eauto. done.
    + intros [front' Hf']. rewrite Hf, append_CRLF in Hf'.
      apply append_last_inj in Hf' as [_ Hc]. discriminate Hc.
  - intros front Hf Hnot.
    rewrite (proj2 (endswith_false first_line CRLF)).
    + rewrite (proj2 (endswith_false first_line CR_str)).
      * rewrite (proj2 (endswith_true first_line nl)) by eauto. done.
      * intros [front' Hf']. rewrite Hf in Hf'.
        apply append_last_inj in Hf' as [_ Hc]. discriminate Hc.
    + intros [front' Hf']. rewrite Hf, append_CRLF in Hf'.
      apply append_last_inj in Hf' as [Hfront _]. by apply (Hnot front').
  - destruct (endswith first_line CRLF) eqn:H1.
    { right. split; [by left|]. by apply endswith_true. }
    destruct (endswith first_line CR_str) eqn:H2.
    { right. split; [right; by left|]. by apply endswith_true. }
    destruct (endswith first_line nl) eqn:H3.
    { right. split; [do 2 right; by left|]. by apply endswith_true. }
    by left.
Qed.

Lemma guess_eol_first_line_witness :
  _guess_eol nl ["1" +:+ CRLF; "00:00:01,000 --> 00:00:02,000" +:+ CRLF]
  = CRLF.
Proof.
  exact (proj1 (guess_eol_first_line nl
                  ["1" +:+ CRLF; "00:00:01,000 --> 00:00:02,000" +:+ CRLF])
               "1" eq_refl).
Defined.

(** X10.  The [eol] of a collection is set once: when [_eol] holds a string
    that is not empty, assigning to [eol] changes nothing; when it holds
    [None] or the empty string, an assigned string that is not empty is
    what [eol] reads afterwards.  Reading [eol] never gives the empty string
    unless [os.linesep] is empty. *)
Theorem eol_set_once {E : Type} (linesep : string) (self : SubRipFile E)
    (eol : option string) :
  (str_bool (_get_eol linesep self) = true ∨ linesep = EmptyString) ∧
  (∀ s, _eol self = Some s → str_bool s = true →
        _set_eol self eol = self) ∧
  (∀ s, eol = Some s → str_bool s = true →
        _eol self = None ∨ _eol self = Some EmptyString →
        _get_eol linesep (_set_eol self eol) = s).
Proof.
  split; [|split].
  - unfold _get_eol, or_str. destruct (_eol self) as [[|c s]|]; cbn.
    + destruct linesep; [by right|by left].
    + by left.
    + destruct linesep; [by right|by left].
  - intros s Hs Htrue. unfold _set_eol, or_opt. rewrite Hs, Htrue.
    destruct self; cbn in *. by rewrite Hs.
  - intros s -> Htrue Hunset. unfold _get_eol, _set_eol, or_opt, or_str.
    cbn [_eol]. destruct Hunset as [->| ->]; cbn; by rewrite Htrue.
Qed.

Lemma eol_set_once_witness :
  _get_eol nl (_set_eol (_set_eol (new_SubRipFile scenario_self) (Some CRLF))
                        (Some CR_str))
  = CRLF.
Proof.
  rewrite (proj1 (proj2 (eol_set_once nl
             (_set_eol (new_SubRipFile scenario_self) (Some CRLF))
             (Some CR_str))) CRLF eq_refl eq_refl).
  exact (proj2 (proj2 (eol_set_once nl (new_SubRipFile scenario_self)
                         (Some CRLF)))
               CRLF eq_refl eq_refl (or_introl eq_refl)).
Defined.

(** ** [read] and [from_string] *)



(** [splitlines] loses no character. *)
Lemma splitlines_from_join (n : nat) : ∀ s cur,
  (String.length s ≤ n)%nat →
  join_empty (splitlines_from cur s) = cur +:+ s.
Proof.
  induction n as [|n IH]; intros s cur Hlen.
  - destruct s; [|cbn in Hlen; lia]. cbn.
    destruct cur; [done|]. cbn. by rewrite !append_nil_r.
  - destruct s as [|c s].
    { cbn. destruct cur; [done|]. cbn. by rewrite !append_nil_r. }
    cbn [String.length] in Hlen. cbn [splitlines_from].
    destruct (Ascii.eqb c CR) eqn:Hc.
    + apply Ascii.eqb_eq in Hc as ->. destruct s as [|c' s].
      * cbn. by rewrite append_nil_r.
      * destruct (Ascii.eqb c' LF) eqn:Hc'.
        -- apply Ascii.eqb_eq in Hc' as ->.
           cbn [join_empty foldr].
           fold (join_empty (splitlines_from EmptyString s)).
           cbn [String.length] in Hlen.
           rewrite IH by lia. by rewrite append_assoc.
        -- cbn [join_empty foldr].
           fold (join_empty (splitlines_from EmptyString (String c' s))).
           rewrite IH by lia. by rewrite append_assoc.
    + destruct (is_linebreak c).
      * cbn [join_empty foldr].
           fold (join_empty (splitlines_from EmptyString s)).
        rewrite IH by lia. by rewrite append_assoc.
      * rewrite IH by lia. by rewrite append_assoc.
Qed.

(** X12.  [from_string] called without [error_handling] lets no error
    escape, whatever the source and the parser: the collection then holds,
    after the [items] it was given, exactly the records that [stream]
    yields under [ERROR_PASS] from the lines of the source, and these lines
    put together are the source, so no character of it is lost on the
    way. *)
Theorem from_string_default_policy
    (from_lines : list string → SubRipItem + Error) (linesep : string)
    (source : string) (items : option (list SubRipItem))
    (eol path : option string) (encoding : string) :
  let result :=
    from_string from_lines linesep source items eol path encoding None in
  ∃ pass,
    stream from_lines (splitlines source) (Some ERROR_PASS)
      = Exhausted pass ∧
    read_error result = None ∧
    read_stderr result = [] ∧
    data (read_self result) = default [] items ++ yielded pass ∧
    join_empty (splitlines source) = source.
Proof.
  intros result.
  assert (Some ERROR_PASS ≠ Some ERROR_RAISE) as Hpass by discriminate.
  assert ((None : option Z) ≠ Some ERROR_RAISE) as Hnone by discriminate.
  assert ((None : option Z) ≠ Some ERROR_LOG) as Hquiet by discriminate.
  destruct (stream_loop_policies from_lines (Some ERROR_PASS) None
              (chain_nl (splitlines source)) 0 stream_init stream_init Hpass
              eq_refl eq_refl) as (pass & Hrun & Hrel).
  destruct (stream_loop_exhausts from_lines None
              (chain_nl (splitlines source)) 0 stream_init Hnone)
    as [st Hst].
  pose proof (stream_loop_quiet from_lines None
                (chain_nl (splitlines source)) 0 stream_init Hquiet) as Hq.
  rewrite Hst in Hrel, Hq. destruct Hrel as [Hy _].
  exists pass. split; [exact Hrun|].
  unfold result, from_string, read, stream. rewrite Hst.
  cbn [read_error read_stderr read_self data set_data _set_eol
       SubRipFile_init].
  split; [done|]. split; [exact Hq|]. split; [by rewrite Hy|].
  unfold splitlines.
  by rewrite (splitlines_from_join (String.length source)).
Qed.

(** ** [at], and how slices and shifts compose *)

Lemma set_data_same {E} (self : SubRipFile E) :
  set_data self (data self) = self.
Proof. by destruct self. Qed.

(** X13.  [at(timestamp)] with a timestamp that is true returns, in their
    order, the references of the records that are on screen at that time:
    those that start before it and end after it, both strictly.  With a
    timestamp that is false, such as 0 or none at all, it returns the
    whole collection. *)
Theorem at_visible (time_bool : SubRipTime → bool) (h : heap)
    (self : SubRipFile loc) (timestamp : option timearg) :
  (∀ a, timestamp = Some a → truthy time_bool timestamp = true →
        data (at_ time_bool h self timestamp)
        = filter (λ i, time_lt (start (h !!! i)) (coerce a) ∧
                       time_lt (coerce a) (end_ (h !!! i))) (data self)) ∧
  (truthy time_bool timestamp = false →
   at_ time_bool h self timestamp = self).
Proof.
  split.
  - intros a -> Htrue. unfold at_. rewrite Htrue, slice_data.
    apply list_filter_iff. intros i. unfold in_window, truthy_ok.
    rewrite Htrue. tauto.
  - intros Hfalse. unfold at_. rewrite Hfalse. unfold slice, keep_if.
    apply set_data_same.
Qed.

Lemma at_visible_witness :
  data (at_ (λ _, true) one_record_heap one_record_file (Some (Millis 500)))
  = [0%nat] ∧
  at_ (λ _, true) one_record_heap one_record_file (Some (Millis 0))
  = one_record_file.
Proof.
  destruct (at_visible (λ _, true) one_record_heap one_record_file
              (Some (Millis 500))) as [Hat _].
  destruct (at_visible (λ _, true) one_record_heap one_record_file
              (Some (Millis 0))) as [_ Hall].
  split; [|exact (Hall eq_refl)].
  rewrite (Hat (Millis 500) eq_refl eq_refl). reflexivity.
Defined.

(** X14.  Slicing a slice, over an unchanged store, keeps the records that
    pass both sets of bounds; so slices can be taken in either order, a
    slice taken twice is the slice, and four slices with one bound each
    make the slice with the four bounds.  A slice keeps the order of the
    collection and its [eol], [path] and [encoding]. *)
Theorem slice_compose (time_bool : SubRipTime → bool) (h : heap)
    (self : SubRipFile loc) (sb sa eb ea sb' sa' eb' ea' : option timearg) :
  let once := slice time_bool h self sb sa eb ea in
  let twice := slice time_bool h once sb' sa' eb' ea' in
  data twice
  = filter (λ i, in_window time_bool h sb sa eb ea i ∧
                 in_window time_bool h sb' sa' eb' ea' i) (data self) ∧
  data twice
  = data (slice time_bool h (slice time_bool h self sb' sa' eb' ea')
            sb sa eb ea) ∧
  slice time_bool h once sb sa eb ea = once ∧
  slice time_bool h
    (slice time_bool h
       (slice time_bool h
          (slice time_bool h self sb None None None) None sa None None)
       None None eb None) None None None ea
  = once ∧
  data once `sublist_of` data self ∧
  (_eol once, path once, encoding once)
  = (_eol self, path self, encoding self).
Proof.
  intros once twice.
  assert (∀ s b1 b2 b3 b4 c1 c2 c3 c4,
            data (slice time_bool h (slice time_bool h s b1 b2 b3 b4)
                    c1 c2 c3 c4)
            = filter (λ i, in_window time_bool h b1 b2 b3 b4 i ∧
                           in_window time_bool h c1 c2 c3 c4 i) (data s))
    as Htwo.
  { intros. rewrite !slice_data, list_filter_filter.
    apply list_filter_iff. intros i. tauto. }
  assert (∀ s1 s2 : SubRipFile loc,
            data s1 = data s2 → _eol s1 = _eol s2 → path s1 = path s2 →
            encoding s1 = encoding s2 → lang_stat s1 = lang_stat s2 →
            langs s1 = langs s2 → s1 = s2) as Hext.
  { intros [] []; cbn. by intros -> -> -> -> -> ->. }
  subst once twice.
  split; [apply Htwo|]. split; [|split; [|split; [|split]]].
  - rewrite !Htwo. apply list_filter_iff. intros i. tauto.
  - apply Hext; try done. rewrite Htwo, slice_data.
    apply list_filter_iff. intros i. tauto.
  - by apply Hext.
  - rewrite slice_data. apply sublist_filter.
  - done.
Qed.

Lemma iter_inverse {A} (f g : A → A) n x :
  (∀ y, g (f y) = y) → Nat.iter n g (Nat.iter n f x) = x.
Proof.
  intros Hinv. induction n as [|n IH]; [done|].
  rewrite (Nat.iter_succ_r n g), (Nat.iter_succ n f), Hinv. exact IH.
Qed.

Lemma SubRipItem_shift_inverse (f g : SubRipTime → SubRipTime) r :
  (∀ t, g (f t) = t) →
  SubRipItem_shift g (SubRipItem_shift f r) = r.
Proof.
  intros Hinv. destruct r. unfold SubRipItem_shift. cbn.
  by rewrite !Hinv.
Qed.

(** X15.  [shift] leaves the store with the same references.  On a
    collection that names no record twice, a shift after a shift is the
    shift by the composed change of time.  On every collection, also one
    that names a record several times, a shift followed by the shift that
    undoes it on each time gives back the store as it was. *)
Theorem shift_compose (f g : SubRipTime → SubRipTime) (h : heap)
    (self : SubRipFile loc) :
  dom (shift f h self) = dom h ∧
  (NoDup (data self) →
   shift g (shift f h self) self = shift (λ t, g (f t)) h self) ∧
  ((∀ t, g (f t) = t) → shift g (shift f h self) self = h).
Proof.
  split; [|split].
  - apply set_eq. intros item. rewrite !elem_of_dom. unfold shift.
    rewrite alter_all_lookup. by rewrite fmap_is_Some.
  - intros Hnd. apply map_eq. intros item. unfold shift.
    rewrite !alter_all_lookup, occurrences_NoDup by done.
    destruct (h !! item) as [r|]; [|done]. cbn.
    case_decide; [|done]. done.
  - intros Hinv. apply map_eq. intros item. unfold shift.
    rewrite !alter_all_lookup.
    destruct (h !! item) as [r|]; [|done].
    cbn [fmap option_fmap option_map]. f_equal.
    apply iter_inverse. intros r'. by apply SubRipItem_shift_inverse.
Qed.

Lemma shift_compose_witness :
  shift (shift_by 500) (shift (shift_by 2000) one_record_heap twice_file)
        twice_file
  ≠ one_record_heap ∧
  shift (shift_by (-2000)) (shift (shift_by 2000) one_record_heap twice_file)
        twice_file
  = one_record_heap ∧
  shift (shift_by 500)
        (shift (shift_by 2000) one_record_heap one_record_file)
        one_record_file
  = shift (λ t, shift_by 500 (shift_by 2000 t)) one_record_heap
          one_record_file.
Proof.
  destruct (shift_compose (shift_by 2000) (shift_by (-2000))
              one_record_heap twice_file) as (_ & _ & Hundo).
  destruct (shift_compose (shift_by 2000) (shift_by 500)
              one_record_heap one_record_file) as (_ & Hcomp & _).
  split; [|split].
  - intros Heq. apply (f_equal (λ m : heap, m !! 0%nat)) in Heq.
    vm_compute in Heq. discriminate Heq.
  - apply Hundo. intros [t]. unfold shift_by. cbn. f_equal. lia.
  - apply Hcomp. cbn. apply NoDup_singleton.
Defined.

(** ** [write_into]: the blank line after a record *)

Lemma replace_app s t old new :
  replace (s +:+ t) old new = replace s old new +:+ replace t old new.
Proof.
  induction s as [|c s IH]; [done|].
  rewrite append_String. cbn [replace]. rewrite IH.
  destruct (Ascii.eqb c old); [by rewrite append_assoc|done].
Qed.

Lemma join_empty_app l1 l2 :
  join_empty (l1 ++ l2) = join_empty l1 +:+ join_empty l2.
Proof.
  induction l1 as [|s l1 IH]; [done|].
  cbn [app join_empty foldr]. fold (join_empty (l1 ++ l2)) (join_empty l1).
  by rewrite IH, append_assoc.
Qed.

Lemma rendered_ends_blank item_str output_eol item front :
  item_str item = front +:+ nl →
  ∃ front', rendered item_str output_eol item
            = front' +:+ (output_eol +:+ output_eol).
Proof.
  intros Hstr. unfold rendered. rewrite <-replace_join, Hstr, replace_app.
  assert (replace nl LF output_eol = output_eol) as ->.
  { change (output_eol +:+ EmptyString = output_eol). apply append_nil_r. }
  destruct (endswith _ (output_eol +:+ output_eol)) eqn:Hends.
  - apply endswith_true in Hends as [front' Hf]. exists front'.
    by rewrite append_nil_r.
  - exists (replace front LF output_eol). by rewrite append_assoc.
Qed.

(** X16.  When the string representation of a record ends with a line
    feed, what [write_into] writes for it ends with two eols, that is with
    a blank line; so the output of a collection whose last record is such
    a record ends with a blank line, whatever was written before. *)
Theorem write_into_ends_blank (linesep : string)
    (item_str : SubRipItem → string) (self : SubRipFile SubRipItem)
    (output_file : string) (eol : option string)
    (items : list SubRipItem) (item : SubRipItem) (front : string) :
  let output_eol := output_eol_of linesep self eol in
  data self = items ++ [item] →
  item_str item = front +:+ nl →
  ∃ front', write_into linesep item_str self output_file eol
            = front' +:+ (output_eol +:+ output_eol).
Proof.
  intros output_eol Hdata Hstr. unfold write_into. fold output_eol.
  rewrite write_items_rendered, Hdata, fmap_app, join_empty_app.
  cbn [fmap list_fmap join_empty foldr]. rewrite append_nil_r.
  destruct (rendered_ends_blank item_str output_eol item front Hstr)
    as [front' ->].
  eexists. by rewrite <-!append_assoc.
Qed.

Lemma write_into_ends_blank_witness :
  ∃ front',
    write_into nl (λ item, text item +:+ nl)
      (new_SubRipFile scenario_self) EmptyString (Some CRLF)
    = front' +:+ (CRLF +:+ CRLF).
Proof.
  apply (write_into_ends_blank nl (λ item, text item +:+ nl)
           (new_SubRipFile scenario_self) EmptyString (Some CRLF) []
           (new_SubRipItem (at_ms 1000) (at_ms 3000) {["en" := "hi"]})
           EmptyString).
  - reflexivity.
  - reflexivity.
Defined.

(** ** The [text] property *)

Lemma split_on_app c s t :
  split_on c (s +:+ String c t) = split_on c s ++ split_on c t.
Proof.
  induction s as [|a s IH].
  - change (split_on c (String c t) = [EmptyString] ++ split_on c t).
    cbn [split_on]. by rewrite Ascii.eqb_refl.
  - rewrite append_String. cbn [split_on]. rewrite IH.
    destruct (Ascii.eqb a c); [done|].
    by destruct (split_on_cons c s) as (piece & pieces & ->).
Qed.

(** X17.  The lines of the [text] of a collection that is not empty are
    the lines of the texts of its records, record after record. *)
Theorem text_lines (self : SubRipFile SubRipItem) :
  data self ≠ [] →
  split_on LF (SubRipFile_text self)
  = concat (split_on LF ∘ text <$> data self).
Proof.
  unfold SubRipFile_text. induction (data self) as [|r l IH]; [done|].
  intros _. destruct l as [|r' l].
  - cbn. by rewrite app_nil_r.
  - cbn [fmap list_fmap]. rewrite join_with_cons by done.
    cbn [concat compose]. unfold nl at 1. rewrite append_String.
    rewrite split_on_app. f_equal. by apply IH.
Qed.

Lemma text_lines_witness :
  split_on LF (SubRipFile_text (new_SubRipFile scenario_other))
  = [EmptyString; EmptyString].
Proof.
  rewrite (text_lines (new_SubRipFile scenario_other)); [reflexivity|].
  discriminate.
Defined.

(** ** [_detect_encoding] *)

Lemma startswith_nil s : startswith s [] = true.
Proof. by destruct s. Qed.

(** Runs [_detect_encoding] on a file whose first bytes are known,
    comparing the known bytes and leaving the others. *)
Ltac detect_bom :=
  unfold _detect_encoding, BOMS;
  change BIGGER_BOM with 4%nat;
  cbn [firstn app find fst snd startswith
       BOM_UTF32_LE BOM_UTF32_BE BOM_UTF16_LE BOM_UTF16_BE BOM_UTF8];
  repeat match goal with
         | |- context [Byte.eqb ?a ?b] =>
             first [ is_var a; fail 1
                   | let v := eval vm_compute in (Byte.eqb a b) in
                     change (Byte.eqb a b) with v ]
         end;
  rewrite ?startswith_nil; cbn [andb]; try reflexivity.

(** X18.  [_detect_encoding] recognises each byte order mark at the start
    of a file, whatever follows it, with one exception: the UTF-16 (LE)
    mark followed by two zero bytes is the UTF-32 (LE) mark, and is taken
    for it.  A file that is empty, or too short for a mark, is taken to be
    [utf_8]. *)
Theorem detect_encoding_bom (rest : list Byte.byte) :
  _detect_encoding (BOM_UTF32_LE ++ rest) = "utf_32_le" ∧
  _detect_encoding (BOM_UTF32_BE ++ rest) = "utf_32_be" ∧
  (take 2 rest ≠ [Byte.x00; Byte.x00] →
   _detect_encoding (BOM_UTF16_LE ++ rest) = "utf_16_le") ∧
  (take 2 rest = [Byte.x00; Byte.x00] →
   _detect_encoding (BOM_UTF16_LE ++ rest) = "utf_32_le") ∧
  _detect_encoding (BOM_UTF16_BE ++ rest) = "utf_16_be" ∧
  _detect_encoding (BOM_UTF8 ++ rest) = "utf_8" ∧
  _detect_encoding [] = DEFAULT_ENCODING ∧
  (∀ b, _detect_encoding [b] = DEFAULT_ENCODING).
Proof.
  split; [detect_bom|]. split; [detect_bom|].
  split; [|split; [|split; [|split; [|split]]]].
  - intros Hnot. destruct rest as [|b1 [|b2 rest]].
    + detect_bom.
    + detect_bom. by destruct (Byte.eqb b1 Byte.x00).
    + detect_bom.
      destruct (Byte.eqb b1 Byte.x00) eqn:H1; [|done].
      destruct (Byte.eqb b2 Byte.x00) eqn:H2; [|done].
      apply Byte.byte_dec_bl in H1, H2. by subst.
  - intros Hzero. destruct rest as [|b1 [|b2 rest]]; [done|done|].
    injection Hzero as -> ->. detect_bom.
  - detect_bom.
  - detect_bom.
  - detect_bom.
  - intros b. detect_bom.
    by destruct (Byte.eqb b Byte.xff), (Byte.eqb b Byte.x00),
      (Byte.eqb b Byte.xfe), (Byte.eqb b Byte.xef).
Qed.

Lemma detect_encoding_bom_witness :
  _detect_encoding (BOM_UTF16_LE ++ [Byte.x31; Byte.x00]) = "utf_16_le" ∧
  _detect_encoding (BOM_UTF16_LE ++ [Byte.x00; Byte.x00; Byte.x31])
  = "utf_32_le".
Proof.
  split.
  - apply (detect_encoding_bom [Byte.x31; Byte.x00]). discriminate.
  - apply (detect_encoding_bom [Byte.x00; Byte.x00; Byte.x31]). reflexivity.
Defined.

(** ** [clean_indexes]: what it leaves alone *)

(** X19.  [clean_indexes] writes indexes and nothing else: the store holds
    the same references, every record keeps its start, its end, its text
    and its language map, a record the collection does not name keeps its
    index too, and the collection keeps its length, its [eol], its [path]
    and its [encoding]. *)
Theorem clean_indexes_frame (h : heap) (self : SubRipFile loc) :
  let h1 := (clean_indexes h self).1 in
  let s1 := (clean_indexes h self).2 in
  dom h1 = dom h ∧
  (∀ item r1, h1 !! item = Some r1 →
     ∃ r, h !! item = Some r ∧
          start r1 = start r ∧ end_ r1 = end_ r ∧ text r1 = text r ∧
          lang_map r1 = lang_map r ∧ (item ∉ data self → r1 = r)) ∧
  length (data s1) = length (data self) ∧
  (_eol s1, path s1, encoding s1) = (_eol self, path self, encoding self).
Proof.
  intros h1 s1. subst h1 s1. unfold clean_indexes. cbn [fst snd].
  assert (list_sort h (data self) ≡ₚ data self) as Hperm
    by apply list_sort_Permutation.
  split; [|split; [|split]].
  - apply set_eq. intros item.
    rewrite !elem_of_dom, assign_indexes_lookup.
    destruct (last_position item (list_sort h (data self)) 0); [|done].
    by rewrite fmap_is_Some.
  - intros item r1. rewrite assign_indexes_lookup.
    destruct (last_position item (list_sort h (data self)) 0) as [p|] eqn:Hp.
    + destruct (h !! item) as [r|]; [|done]. cbn. intros [= <-].
      exists r. repeat split. intros Hnot. exfalso.
      rewrite last_position_None in Hp; [done|]. by rewrite Hperm.
    + intros Hr. exists r1. by repeat split.
  - cbn [data set_data]. by rewrite Hperm.
  - done.
Qed.

Lemma clean_indexes_frame_witness :
  ∃ r, one_record_heap !! 0%nat = Some r ∧
       ordinal (start r) = 0 ∧ ordinal (end_ r) = 1000.
Proof.
  destruct (clean_indexes_frame one_record_heap one_record_file)
    as (_ & Hkeep & _).
  destruct (Hkeep 0%nat
              (set_index 1 (new_SubRipItem (at_ms 0) (at_ms 1000) ∅)))
    as (r & Hr & Hstart & Hend & _); [reflexivity|].
  exists r. split; [exact Hr|]. by rewrite <-Hstart, <-Hend.
Defined.
